(** * GlassPass: the password generator and the strength evaluator of
      [src/js/app.js], embedded and verified.

    The embedding follows the JavaScript source function by function:
    [getRandomChar], [shuffleArray], [generateSecurePassword] and
    [evaluatePasswordStrength], then the event handlers around them:
    [updatePasswordSettings], [validateSettings], [showError],
    [handleGeneratePassword], [handleLengthChange], [handleCheckboxChange],
    [createWaterDrops] and [initializeApp].

    Modelling conventions.
    - A JavaScript string is its sequence of UTF-16 code units ([jsstring]).
    - An array is a list of values; reading past the end yields [undefined]
      and writing past the end extends the array, as in JavaScript.
    - Arrays that cross a function boundary live in a store and are passed
      by reference ([loc]): [shuffleArray] receives a reference and returns
      a reference.
      The store is not a record of every array the source creates: the
      arrays local to one function ([guaranteedChars], the result of
      [Array.from], the array literal of an exchange) are values.
    - [Math.random()] is an oracle: the [k]-th call of a run returns
      [random k], a double of the half-open interval from 0 to 1, given
      by its significand and its binary scale.  The state counts the calls
      made so far.  The product [Math.random() * n] is the double nearest
      to the exact product, ties to even ([round53]), as in IEEE 754.
    - An array has at most [2^32 - 1] elements: [Array.from] and [concat]
      throw a [RangeError] beyond that.  These are the limits of the
      language; the memory of one engine, and the length it allows a
      string below that of the language, are not modelled.
    - A [throw] ends the run with the error and the state reached. *)

From Stdlib Require Import ZArith NArith QArith Qround String Ascii Lia
  DecimalString.
From stdpp Require Import base list.

Set Default Proof Using "Type".

(** ** Strings *)

Abbreviation code_unit := N (only parsing).
Abbreviation jsstring := (list N) (only parsing).

(** The code units of an ASCII literal of the source. *)
Fixpoint str (s : string) : jsstring :=
  match s with
  | EmptyString => []
  | String a rest => N_of_ascii a :: str rest
  end.

(** [s.charAt(pos)]: the one-unit string at [pos], or the empty string when
    [pos] is out of range. *)
Definition charAt (s : jsstring) (pos : Z) : jsstring :=
  if (pos <? 0)%Z then []
  else match s !! Z.to_nat pos with
       | Some c => [c]
       | None => []
       end.

(** ** Constants *)

Module CHAR_SETS.

Definition lowercase : jsstring := str "abcdefghijklmnopqrstuvwxyz".
Definition uppercase : jsstring := str "ABCDEFGHIJKLMNOPQRSTUVWXYZ".
Definition numbers : jsstring := str "0123456789".
Definition symbols : jsstring := str "!@#$%^&*()_+-=[]{}|;:,.<>?".

End CHAR_SETS.

(** ** Values, arrays and the store *)

Inductive value :=
| VString (s : jsstring)
| VUndefined.

Abbreviation array := (list value) (only parsing).

(** [a[i]] as an expression. *)
Definition array_get (a : array) (i : nat) : value :=
  match a !! i with
  | Some v => v
  | None => VUndefined
  end.

(** [a[i] = v]: in range the slot is overwritten; out of range the array
    grows to length [i + 1], the new slots before [i] being holes. *)
Definition array_set (a : array) (i : nat) (v : value) : array :=
  if decide (i < length a) then <[i := v]> a
  else a ++ replicate (i - length a) VUndefined ++ [v].

(** [a.join('')]: [undefined] elements contribute the empty string. *)
Definition join (a : array) : jsstring :=
  concat (map (fun v => match v with VString s => s | VUndefined => [] end) a).

Abbreviation loc := nat (only parsing).

Record state := mkState {
  calls : nat;            (* calls of Math.random() made so far *)
  heap : list (list value) (* the arrays allocated so far *)
}.

Inductive error :=
| Error (message : jsstring)
| TypeError
| RangeError.

Inductive outcome (A : Type) :=
| Return (a : A) (st : state)
| Throw (e : error) (st : state).
Arguments Return {A} a st.
Arguments Throw {A} e st.

Definition M (A : Type) : Type := state -> outcome A.

Definition ret {A} (a : A) : M A := fun st => Return a st.

Definition throw {A} (e : error) : M A := fun st => Throw e st.

Definition bind {A B} (m : M A) (f : A -> M B) : M B :=
  fun st =>
    match m st with
    | Return a st' => f a st'
    | Throw e st' => Throw e st'
    end.

Declare Scope js_scope.
Delimit Scope js_scope with js.
Notation "x <- m ;; k" := (bind m (fun x => k))
  (at level 100, m at next level, right associativity) : js_scope.
Notation "m ;; k" := (bind m (fun _ => k))
  (at level 100, right associativity) : js_scope.
Open Scope js_scope.

(** A new array object. *)
Definition alloc (a : array) : M loc :=
  fun st => Return (length (heap st)) (mkState (calls st) (heap st ++ [a])).

(** The contents of the array behind a reference; a value that is not an
    array has none. *)
Definition load (l : loc) : M array :=
  fun st =>
    match heap st !! l with
    | Some a => Return a st
    | None => Throw TypeError st
    end.

Definition store (l : loc) (a : array) : M unit :=
  fun st => Return tt (mkState (calls st) (<[l := a]> (heap st))).

(** ** The random source *)

(** A double of the half-open interval from 0 to 1: the number
    [significand / 2^scale], with a significand of at most 53 bits and a
    scale of at most 1074.  Every such double, normal or subnormal, is of
    this form. *)
Record unit_interval := mkUnit {
  significand : Z;
  scale : Z;
  ui_range :
    (0 <=? significand)%Z && (significand <? 2 ^ 53)%Z
    && (significand <? 2 ^ scale)%Z
    && (0 <=? scale)%Z && (scale <=? 1074)%Z = true
}.

(** The value of the double. *)
Definition ui_val (r : unit_interval) : Q :=
  significand r # Z.to_pos (2 ^ scale r).

(** A non-negative integer rounded to 53 significant bits, to nearest and
    ties to even: with [s] the number of bits beyond 53, the low [s] bits
    are dropped and the rest goes up by one when they are more than half,
    or exactly half with an odd rest. *)
Definition round53 (M : Z) : Z :=
  if (M <? 2 ^ 53)%Z then M
  else
    let s := (Z.log2 M - 52)%Z in
    let q := (M / 2 ^ s)%Z in
    let rem := (M mod 2 ^ s)%Z in
    let half := (2 ^ (s - 1))%Z in
    ((if (half <? rem)%Z || ((rem =? half)%Z && Z.odd q) then q + 1 else q)
     * 2 ^ s)%Z.

(** [r * n] in double arithmetic, for a length [n] (a length is below
    [2^53] and so is a double itself): the exact product
    [significand * n / 2^scale] with its numerator rounded. *)
Definition times (r : unit_interval) (n : nat) : Q :=
  round53 (significand r * Z.of_nat n) # Z.to_pos (2 ^ scale r).

Definition Math_floor (x : Q) : Z := Qfloor x.

(** The settings object read by the generator. *)
Module Settings.

Record t := mk {
  length : Z;
  includeUppercase : bool;
  includeLowercase : bool;
  includeNumbers : bool;
  includeSymbols : bool
}.

End Settings.

(** The largest length of an array. *)
Definition maxArrayLength : Z := 2 ^ 32 - 1.

(** [ToLength] of an integer: negative lengths count as zero, and lengths
    stop at [2^53 - 1]. *)
Definition ToLength (n : Z) : Z := Z.min (Z.max n 0) (2 ^ 53 - 1).

Section Generator.

Variable random : nat -> unit_interval.

Definition Math_random : M unit_interval :=
  fun st => Return (random (calls st)) (mkState (S (calls st)) (heap st)).

(** [Math.floor(Math.random() * n)] *)
Definition randomIndex (n : nat) : M Z :=
  r <- Math_random ;;
  ret (Math_floor (times r n)).

Definition getRandomChar (chars : jsstring) : M jsstring :=
  pos <- randomIndex (length chars) ;;
  ret (charAt chars pos).

(** The body of the [for] loop of [shuffleArray], at index [i], followed by
    the remaining iterations: [i > 0] is the loop test and the recursive
    call is the [i--] step. *)
Fixpoint shuffleLoop (shuffled : loc) (i : nat) : M unit :=
  match i with
  | O => ret tt
  | S i' =>
      j <- randomIndex (i + 1) ;;
      a <- load shuffled ;;
      let rhs := (array_get a (Z.to_nat j), array_get a i) in
      store shuffled (array_set a i (fst rhs)) ;;
      a <- load shuffled ;;
      store shuffled (array_set a (Z.to_nat j) (snd rhs)) ;;
      shuffleLoop shuffled i'
  end.

Definition shuffleArray (array : loc) : M loc :=
  a <- load array ;;
  shuffled <- alloc a ;;
  a <- load shuffled ;;
  shuffleLoop shuffled (length a - 1) ;;
  ret shuffled.

(** One of the four [if (include...)] blocks. *)
Definition addClass (include : bool) (set : jsstring)
    (acc : jsstring * list value) : M (jsstring * list value) :=
  let '(availableChars, guaranteedChars) := acc in
  if include then
    c <- getRandomChar set ;;
    ret (availableChars ++ set, guaranteedChars ++ [VString c])
  else ret acc.

(** Lines 60 to 81: the pool and the guaranteed characters. *)
Definition collectChars (cfg : Settings.t) : M (jsstring * list value) :=
  acc <- addClass (Settings.includeLowercase cfg) CHAR_SETS.lowercase ([], []) ;;
  acc <- addClass (Settings.includeUppercase cfg) CHAR_SETS.uppercase acc ;;
  acc <- addClass (Settings.includeNumbers cfg) CHAR_SETS.numbers acc ;;
  addClass (Settings.includeSymbols cfg) CHAR_SETS.symbols acc.

(** The loop of [Array.from]: [f] is called for the indices 0 to
    [n - 1] in turn. *)
Fixpoint fillArray (n : nat) (f : M value) : M array :=
  match n with
  | O => ret []
  | S n' =>
      v <- f ;;
      rest <- fillArray n' f ;;
      ret (v :: rest)
  end.

(** [Array.from({ length: n }, f)]: the array is created with the length
    [ToLength(n)] before [f] is ever called, and a length beyond the
    largest one is a [RangeError]. *)
Definition Array_from (n : Z) (f : M value) : M array :=
  let len := ToLength n in
  if (maxArrayLength <? len)%Z then throw RangeError
  else fillArray (Z.to_nat len) f.

(** [a.concat(b)]: a new array, unless it would be longer than an array
    can be. *)
Definition concat (a b : list value) : M loc :=
  if (maxArrayLength <? Z.of_nat (length a + length b))%Z then throw RangeError
  else alloc (a ++ b).

Definition noClassMessage : jsstring :=
  str "Debe seleccionar al menos un tipo de car" ++ [225%N] ++ str "cter".

Definition fillChars (availableChars : jsstring) (remainingLength : Z) : M array :=
  Array_from remainingLength
    (c <- getRandomChar availableChars ;; ret (VString c)).

Definition generateSecurePassword (cfg : Settings.t) : M jsstring :=
  acc <- collectChars cfg ;;
  let '(availableChars, guaranteedChars) := acc in
  if (length availableChars =? 0)%nat then
    throw (Error noClassMessage)
  else
    let remainingLength :=
      (Settings.length cfg - Z.of_nat (length guaranteedChars))%Z in
    filled <- fillChars availableChars remainingLength ;;
    password <- concat guaranteedChars filled ;;
    shuffled <- shuffleArray password ;;
    a <- load shuffled ;;
    ret (join a).

End Generator.

(** ** The strength evaluator *)

Record report := mkReport {
  strength : jsstring;
  score : Z;
  feedback : list jsstring
}.

(** A range [lo-hi] of a character class. *)
Definition inRange (lo hi : ascii) (c : code_unit) : bool :=
  (N_of_ascii lo <=? c)%N && (c <=? N_of_ascii hi)%N.

(** [/[...]/.test(s)]: some code unit of [s] is in the class. *)
Definition test (class : code_unit -> bool) (s : jsstring) : bool :=
  existsb class s.

Definition lowerClass : code_unit -> bool := inRange "a" "z".
Definition upperClass : code_unit -> bool := inRange "A" "Z".
Definition digitClass : code_unit -> bool := inRange "0" "9".
Definition otherClass (c : code_unit) : bool :=
  negb (inRange "a" "z" c || inRange "A" "Z" c || inRange "0" "9" c).

Definition lengthAdvice : jsstring := str "Usar al menos 8 caracteres".
Definition veryStrong : jsstring := str "Muy fuerte".
Definition strong : jsstring := str "Fuerte".
Definition medium : jsstring := str "Media".
Definition weak : jsstring := str "D" ++ [233%N] ++ str "bil".

Definition evaluatePasswordStrength (password : jsstring) : report :=
  let score := 0%Z in
  let feedback : list jsstring := [] in
  let '(score, feedback) :=
    if (12 <=? length password)%nat then ((score + 2)%Z, feedback)
    else if (8 <=? length password)%nat then ((score + 1)%Z, feedback)
    else (score, feedback ++ [lengthAdvice]) in
  let score := if test lowerClass password then (score + 1)%Z else score in
  let score := if test upperClass password then (score + 1)%Z else score in
  let score := if test digitClass password then (score + 1)%Z else score in
  let score := if test otherClass password then (score + 1)%Z else score in
  let strength :=
    if (6 <=? score)%Z then veryStrong
    else if (4 <=? score)%Z then strong
    else if (2 <=? score)%Z then medium
    else weak in
  mkReport strength score feedback.

(** ** Concrete random sources, for running the model *)

(** A bound on the significand that makes a multiple of [2^-53] a double
    of the interval. *)
Definition clamp53 (m : Z) : Z := Z.min (2 ^ 53 - 1) (Z.max 0 m).

(** The double [clamp53 m / 2^53]. *)
Definition binary53 (m : Z) : unit_interval.
Proof.
  refine (mkUnit (clamp53 m) 53 _).
  unfold clamp53.
  assert (H : (0 <= Z.min (2 ^ 53 - 1) (Z.max 0 m) < 2 ^ 53)%Z) by lia.
  destruct H as [H0 H1].
  apply Z.leb_le in H0. apply Z.ltb_lt in H1. rewrite H0, H1. reflexivity.
Defined.

(** The fraction [(p mod (q+1)) / (q+1)] as a double: its first 53 binary
    places. *)
Definition fraction (p q : nat) : unit_interval :=
  binary53 (Z.of_nat (p mod S q) * 2 ^ 53 / Z.of_nat (S q)).

(** The least multiple of [2^-53] that is at least [j / n]. *)
Definition drawFor (j n : nat) : unit_interval :=
  binary53 ((Z.of_nat j * 2 ^ 53 + Z.of_nat n - 1) / Z.of_nat n).

(** The [k]-th call returns [((3k + 2) mod 7) / 7], as a double. *)
Definition sevenths : nat -> unit_interval := fun k => fraction (3 * k + 2) 6.

Definition emptyState : state := mkState 0 [].

(** All four classes enabled. *)
Definition allClasses (n : Z) : Settings.t := Settings.mk n true true true true.

(** Length 2 with uppercase, lowercase and numbers enabled. *)
Definition twoOfThree : Settings.t := Settings.mk 2 true true true false.

(** No class enabled. *)
Definition noClass : Settings.t := Settings.mk 8 false false false false.

(** A store holding the one array ['a', 'b', 'c', 'd']. *)
Definition fourLetters : state :=
  mkState 0 [[VString (str "a"); VString (str "b");
              VString (str "c"); VString (str "d")]].

(** ** Vocabulary of the properties *)

(** [validateSettings] of the source: some class is enabled. *)
Definition validateSettings (cfg : Settings.t) : bool :=
  Settings.includeUppercase cfg || Settings.includeLowercase cfg
  || Settings.includeNumbers cfg || Settings.includeSymbols cfg.

Definition validConfig (cfg : Settings.t) : Prop :=
  validateSettings cfg = true /\ (1 <= Settings.length cfg)%Z.

Definition enabledCount (cfg : Settings.t) : nat :=
  (if Settings.includeLowercase cfg then 1 else 0)
  + (if Settings.includeUppercase cfg then 1 else 0)
  + (if Settings.includeNumbers cfg then 1 else 0)
  + (if Settings.includeSymbols cfg then 1 else 0).

(** The enabled class strings, concatenated in the order lowercase,
    uppercase, numbers, symbols. *)
Definition canonicalPool (cfg : Settings.t) : jsstring :=
  (if Settings.includeLowercase cfg then CHAR_SETS.lowercase else [])
  ++ (if Settings.includeUppercase cfg then CHAR_SETS.uppercase else [])
  ++ (if Settings.includeNumbers cfg then CHAR_SETS.numbers else [])
  ++ (if Settings.includeSymbols cfg then CHAR_SETS.symbols else []).

(** The index computed from the draw [r] for a range of [n] values. *)
Definition pick (r : unit_interval) (n : nat) : Z :=
  Math_floor (times r n).

(** The state after [n] more draws. *)
Definition drawn (n : nat) (st : state) : state :=
  mkState (n + calls st) (heap st).

(** Exchange of the elements at [i] and [j]. *)
Definition swap {A} (l : list A) (i j : nat) : list A :=
  match l !! i, l !! j with
  | Some x, Some y => <[j := x]> (<[i := y]> l)
  | _, _ => l
  end.

(** Fisher-Yates as the specification words it: for the index [i] from
    the last position down to 1, exchange position [i] with the chosen
    position [choose i]. *)
Fixpoint fisherYates {A} (choose : nat -> nat) (i : nat) (l : list A) : list A :=
  match i with
  | O => l
  | S i' => fisherYates choose i' (swap l i (choose i))
  end.

(** The position chosen at index [i] by a [shuffleArray] call on an array
    of length [n] that starts after [k] draws. *)
Definition chosen (random : nat -> unit_interval) (k n : nat) (i : nat) : nat :=
  Z.to_nat (pick (random (k + (n - 1 - i))) (i + 1)).

(** The random source that makes a [shuffleArray] call on an array of
    length [n], started after [k] draws, choose [choose i] at index [i]. *)
Definition sourceFor (choose : nat -> nat) (k n : nat) : nat -> unit_interval :=
  fun m => drawFor (choose (n - 1 - (m - k))) (n - 1 - (m - k) + 1).

(** A one-unit string whose unit is in [chars]. *)
Definition charOf (chars : jsstring) (v : value) : Prop :=
  exists c, v = VString [c] /\ c ∈ chars.

(** The code unit [c] lies between the units of [lo] and [hi]. *)
Definition between (lo hi : ascii) (c : code_unit) : Prop :=
  (N_of_ascii lo <= c)%N /\ (c <= N_of_ascii hi)%N.

Definition isLower (c : code_unit) : Prop := between "a" "z" c.
Definition isUpper (c : code_unit) : Prop := between "A" "Z" c.
Definition isDigit (c : code_unit) : Prop := between "0" "9" c.
Definition isOther (c : code_unit) : Prop :=
  ~ isLower c /\ ~ isUpper c /\ ~ isDigit c.

(** The string contains a code unit with the property. *)
Definition contains (P : code_unit -> Prop) (s : jsstring) : Prop :=
  exists c, c ∈ s /\ P c.

(** The points for the length. *)
Definition lengthPoints (n : nat) : Z :=
  if decide (12 <= n)%nat then 2 else if decide (8 <= n)%nat then 1 else 0.

(** The label of a score. *)
Definition labelOf (n : Z) : jsstring :=
  if decide (6 <= n)%Z then veryStrong
  else if decide (4 <= n)%Z then strong
  else if decide (2 <= n)%Z then medium
  else weak.

(** ** The page and its event handlers *)

(** The page state is what the handlers read, and what they write that
    outlives the call as data: the slider, the four checkboxes, the
    password field, the length display, the messages handed to
    [showError], the [passwordSettings] variable and the run-time state of
    the generator.  Statements that only touch CSS classes, inline styles,
    the timers that restore them and the console have no effect on it.
    The length slider is a range input: its value always parses, and the
    field holds [parseInt(elements.lengthSlider.value)]. *)

Inductive checkbox := Uppercase | Lowercase | Numbers | Symbols.

Record checkboxes := mkBoxes {
  uppercaseChecked : bool;
  lowercaseChecked : bool;
  numbersChecked : bool;
  symbolsChecked : bool
}.

Record page := mkPage {
  sliderValue : Z;
  boxes : checkboxes;
  passwordOutput : jsstring;
  lengthValue : jsstring;
  shownErrors : list jsstring;
  passwordSettings : Settings.t;
  runtime : state
}.

(** [c.checked = v] *)
Definition setChecked (c : checkbox) (v : bool) (b : checkboxes) : checkboxes :=
  match c with
  | Uppercase => mkBoxes v (lowercaseChecked b) (numbersChecked b) (symbolsChecked b)
  | Lowercase => mkBoxes (uppercaseChecked b) v (numbersChecked b) (symbolsChecked b)
  | Numbers => mkBoxes (uppercaseChecked b) (lowercaseChecked b) v (symbolsChecked b)
  | Symbols => mkBoxes (uppercaseChecked b) (lowercaseChecked b) (numbersChecked b) v
  end.

(** [Object.values(elements.checkboxes).some(checkbox => checkbox.checked)] *)
Definition anyChecked (b : checkboxes) : bool :=
  existsb (fun checked => checked)
    [uppercaseChecked b; lowercaseChecked b; numbersChecked b; symbolsChecked b].

(** The string of an integer number, as assigning it to [textContent]
    makes it. *)
Definition toString (n : Z) : jsstring :=
  str (NilZero.string_of_int (Z.to_int n)).

(** The truth value of a string: the empty string is false. *)
Definition truthy (s : jsstring) : bool :=
  match s with
  | [] => false
  | _ :: _ => true
  end.

Definition generateErrorMessage : jsstring :=
  str "Error al generar la contrase" ++ [241%N] ++ str "a".

Definition keepOneMessage : jsstring :=
  str "Debe mantener al menos una opci" ++ [243%N] ++ str "n seleccionada".

Definition showError (message : jsstring) (p : page) : page :=
  mkPage (sliderValue p) (boxes p) (passwordOutput p) (lengthValue p)
    (shownErrors p ++ [message]) (passwordSettings p) (runtime p).

Definition updatePasswordSettings (p : page) : page :=
  mkPage (sliderValue p) (boxes p) (passwordOutput p) (lengthValue p)
    (shownErrors p)
    (Settings.mk (sliderValue p)
       (uppercaseChecked (boxes p)) (lowercaseChecked (boxes p))
       (numbersChecked (boxes p)) (symbolsChecked (boxes p)))
    (runtime p).

Section Handlers.

Variable random : nat -> unit_interval.

Definition handleGeneratePassword (p : page) : page :=
  let p := updatePasswordSettings p in
  if negb (validateSettings (passwordSettings p)) then
    showError noClassMessage p
  else
    match generateSecurePassword random (passwordSettings p) (runtime p) with
    | Return newPassword st =>
        mkPage (sliderValue p) (boxes p) newPassword (lengthValue p)
          (shownErrors p) (passwordSettings p) st
    | Throw _ st =>
        showError generateErrorMessage
          (mkPage (sliderValue p) (boxes p) (passwordOutput p) (lengthValue p)
             (shownErrors p) (passwordSettings p) st)
    end.

Definition handleLengthChange (p : page) : page :=
  let newLength := sliderValue p in
  let p :=
    mkPage (sliderValue p) (boxes p) (passwordOutput p) (toString newLength)
      (shownErrors p)
      (Settings.mk newLength
         (Settings.includeUppercase (passwordSettings p))
         (Settings.includeLowercase (passwordSettings p))
         (Settings.includeNumbers (passwordSettings p))
         (Settings.includeSymbols (passwordSettings p)))
      (runtime p) in
  if truthy (passwordOutput p) then handleGeneratePassword p else p.

(** [target] is the checkbox the change event comes from. *)
Definition handleCheckboxChange (target : checkbox) (p : page) : page :=
  let p := updatePasswordSettings p in
  if negb (anyChecked (boxes p)) then
    showError keepOneMessage
      (mkPage (sliderValue p) (setChecked target true (boxes p))
         (passwordOutput p) (lengthValue p) (shownErrors p)
         (passwordSettings p) (runtime p))
  else if truthy (passwordOutput p) then handleGeneratePassword p
  else p.

End Handlers.

(** The number of checked boxes. *)
Definition checkedCount (b : checkboxes) : nat :=
  (if lowercaseChecked b then 1 else 0) + (if uppercaseChecked b then 1 else 0)
  + (if numbersChecked b then 1 else 0) + (if symbolsChecked b then 1 else 0).

(** [c.checked] *)
Definition isChecked (c : checkbox) (b : checkboxes) : bool :=
  match c with
  | Uppercase => uppercaseChecked b
  | Lowercase => lowercaseChecked b
  | Numbers => numbersChecked b
  | Symbols => symbolsChecked b
  end.

(** What happens to the page.  For a user action the browser first
    changes the control (the slider takes its new value, the box is
    toggled) and then runs the listener that [setupEventListeners]
    registered for it; [DropsTimer] is the timer of [createWaterDrops]
    firing. *)
Inductive userAction :=
| ClickGenerate
| MoveSlider (newValue : Z)
| ToggleBox (c : checkbox)
| DropsTimer.

Section Session.

Variable random : nat -> unit_interval.

(** A [for] loop that runs [body] for [n] rounds. *)
Fixpoint repeatM (n : nat) (body : M unit) : M unit :=
  match n with
  | O => ret tt
  | S n' => body ;; repeatM n' body
  end.

(** [createWaterDrops], on the run-time state: the drops and their styles
    are decoration, the calls of [Math.random()] are not. *)
Definition createWaterDrops : M unit :=
  let dropCount := 5%nat in
  repeatM dropCount
    (_ <- Math_random random ;;
     _ <- Math_random random ;;
     _ <- Math_random random ;;
     ret tt) ;;
  _ <- Math_random random ;;
  ret tt.

(** [initializeApp], on the page state: the initial password. *)
Definition initializeApp (p : page) : page := handleGeneratePassword random p.

Definition dispatch (p : page) (action : userAction) : page :=
  match action with
  | ClickGenerate => handleGeneratePassword random p
  | MoveSlider newValue =>
      handleLengthChange random
        (mkPage newValue (boxes p) (passwordOutput p) (lengthValue p)
           (shownErrors p) (passwordSettings p) (runtime p))
  | ToggleBox c =>
      handleCheckboxChange random c
        (mkPage (sliderValue p)
           (setChecked c (negb (isChecked c (boxes p))) (boxes p))
           (passwordOutput p) (lengthValue p)
           (shownErrors p) (passwordSettings p) (runtime p))
  | DropsTimer =>
      match createWaterDrops (runtime p) with
      | Return _ st | Throw _ st =>
          mkPage (sliderValue p) (boxes p) (passwordOutput p) (lengthValue p)
            (shownErrors p) (passwordSettings p) st
      end
  end.

(** The page after loading and a sequence of user actions. *)
Definition session (actions : list userAction) (p : page) : page :=
  fold_left dispatch actions (initializeApp p).

End Session.

(** The slider values of the actions are lengths an array can have. *)
Definition sliderWithin (action : userAction) : Prop :=
  match action with
  | MoveSlider newValue => (newValue <= maxArrayLength)%Z
  | _ => True
  end.

(** The settings that mirror the controls. *)
Definition settingsOf (p : page) : Settings.t :=
  Settings.mk (sliderValue p)
    (uppercaseChecked (boxes p)) (lowercaseChecked (boxes p))
    (numbersChecked (boxes p)) (symbolsChecked (boxes p)).

(** What holds of a returned password: it is the join of a permutation of
    the guaranteed characters followed by the fill. *)
Definition generatedFrom (cfg : Settings.t) (guaranteedChars filled : list value)
    (s : list N) : Prop :=
  exists shuffled,
    s = join shuffled
    /\ shuffled ≡ₚ guaranteedChars ++ filled
    /\ length guaranteedChars = enabledCount cfg
    /\ length filled = Z.to_nat (Settings.length cfg - Z.of_nat (enabledCount cfg))
    /\ Forall (charOf (canonicalPool cfg)) (guaranteedChars ++ filled)
    /\ (Settings.includeLowercase cfg = true ->
        Exists (charOf CHAR_SETS.lowercase) guaranteedChars)
    /\ (Settings.includeUppercase cfg = true ->
        Exists (charOf CHAR_SETS.uppercase) guaranteedChars)
    /\ (Settings.includeNumbers cfg = true ->
        Exists (charOf CHAR_SETS.numbers) guaranteedChars)
    /\ (Settings.includeSymbols cfg = true ->
        Exists (charOf CHAR_SETS.symbols) guaranteedChars).

(** The password shown agrees with the controls: some box is checked, the
    password has the length of the slider, or one character per checked
    box when that is more, and all its characters come from the classes of
    the checked boxes. *)
Definition agrees (p : page) : Prop :=
  anyChecked (boxes p) = true
  /\ Z.of_nat (length (passwordOutput p))
     = Z.max (sliderValue p) (Z.of_nat (checkedCount (boxes p)))
  /\ (forall c, c ∈ passwordOutput p -> c ∈ canonicalPool (settingsOf p)).

(** The page as the script finds it: the given slider value and boxes, the
    settings read from them, nothing generated yet. *)
Definition freshPage (n : Z) (b : checkboxes) : page :=
  mkPage n b [] (toString n) []
    (Settings.mk n (uppercaseChecked b) (lowercaseChecked b)
       (numbersChecked b) (symbolsChecked b))
    emptyState.

(** A store holding the one array ['x']. *)
Definition oneLetter : state := mkState 0 [[VString (str "x")]].

(** A page with the slider at 12 and the four boxes checked. *)
Definition fullPage : page := freshPage 12 (mkBoxes true true true true).

(** A page with the slider at 8 and no box checked. *)
Definition uncheckedPage : page := freshPage 8 (mkBoxes false false false false).

(** A page with the slider at [2^32 + 4], the four boxes checked and a
    password shown. *)
Definition overflowPage : page :=
  mkPage (2 ^ 32 + 4) (mkBoxes true true true true) (str "kept") [] []
    (allClasses 12) emptyState.

(** ** Rounding to 53 bits *)

Ltac literal_powers :=
  change (2 ^ 52)%Z with 4503599627370496%Z in *;
  change (2 ^ 53)%Z with 9007199254740992%Z in *.

Section Rounding.

Local Open Scope Z_scope.

Lemma round53_small M : (M < 2 ^ 53)%Z -> round53 M = M.
Proof.
  intros H. unfold round53. destruct (Z.ltb_spec M (2 ^ 53)); [done | lia].
Qed.

(** Beyond 53 bits: the integer splits into a 53-bit part [q] and [s]
    low bits [rem], and the result is [q] or [q + 1] at the place of
    [q]; it goes down only from at most half, up only from at least half. *)
Lemma round53_cases M :
  (2 ^ 53 <= M)%Z ->
  exists s q rem,
    (1 <= s)%Z /\ (M = q * 2 ^ s + rem)%Z /\ (0 <= rem < 2 ^ s)%Z
    /\ (2 ^ 52 <= q < 2 ^ 53)%Z
    /\ (round53 M = (q * 2 ^ s)%Z /\ (2 * rem <= 2 ^ s)%Z
        \/ round53 M = ((q + 1) * 2 ^ s)%Z /\ (2 ^ s <= 2 * rem)%Z).
Proof.
  intros HM.
  assert (H0 : (0 < M)%Z) by (pose proof (Z.pow_pos_nonneg 2 53); lia).
  destruct (Z.log2_spec M H0) as [Hlo Hhi].
  assert (Hl : (53 <= Z.log2 M)%Z).
  { apply Z.log2_le_pow2; [lia | exact HM]. }
  set (s := (Z.log2 M - 52)%Z) in *.
  assert (Hs : (1 <= s)%Z) by lia.
  assert (Hps : (0 < 2 ^ s)%Z) by (apply Z.pow_pos_nonneg; lia).
  assert (Hsplit : (2 ^ Z.log2 M = 2 ^ 52 * 2 ^ s)%Z).
  { rewrite <- Z.pow_add_r by lia. f_equal. lia. }
  assert (Hsplit' : (2 ^ Z.succ (Z.log2 M) = 2 ^ 53 * 2 ^ s)%Z).
  { rewrite <- Z.pow_add_r by lia. f_equal. lia. }
  assert (Hhalf : (2 * 2 ^ (s - 1) = 2 ^ s)%Z).
  { replace s with (Z.succ (s - 1)) at 2 by lia.
    rewrite Z.pow_succ_r by lia. done. }
  exists s, (M / 2 ^ s)%Z, (M mod 2 ^ s)%Z.
  pose proof (Z.div_mod M (2 ^ s) ltac:(lia)) as Hdm.
  pose proof (Z.mod_pos_bound M (2 ^ s) Hps) as Hmod.
  split; [done|]. split; [lia|]. split; [done|].
  assert (Hq : (2 ^ 52 <= M / 2 ^ s < 2 ^ 53)%Z).
  { split.
    - apply Z.div_le_lower_bound; lia.
    - apply Z.div_lt_upper_bound; lia. }
  split; [done|].
  unfold round53. destruct (Z.ltb_spec M (2 ^ 53)); [lia|]. fold s.
  destruct (Z.ltb_spec (2 ^ (s - 1)) (M mod 2 ^ s)); cbn [orb].
  - right. split; [done | lia].
  - destruct (Z.eqb_spec (M mod 2 ^ s) (2 ^ (s - 1))); cbn [andb].
    + destruct (Z.odd (M / 2 ^ s)); [right | left]; split; try done; lia.
    + left. split; [done | lia].
Qed.

Lemma pow2_split e s :
  (0 <= s <= e)%Z -> (2 ^ e = 2 ^ (e - s) * 2 ^ s)%Z /\ (1 <= 2 ^ (e - s))%Z.
Proof.
  intros H. split.
  - rewrite <- Z.pow_add_r by lia. f_equal. lia.
  - pose proof (Z.pow_pos_nonneg 2 (e - s)). lia.
Qed.

Lemma pow2_below e s : (0 <= e < s)%Z -> (2 * 2 ^ e <= 2 ^ s)%Z.
Proof.
  intros H. rewrite <- Z.pow_succ_r by lia. apply Z.pow_le_mono_r; lia.
Qed.

(** Rounding does not go below a number of at most 53 bits that the
    integer is not below. *)
Lemma round53_ge c e M :
  (0 <= c < 2 ^ 53)%Z -> (0 <= e)%Z -> (c * 2 ^ e <= M)%Z ->
  (c * 2 ^ e <= round53 M)%Z.
Proof.
  intros Hc He HL.
  destruct (Z.lt_ge_cases M (2 ^ 53)) as [Hsm|Hbig].
  { by rewrite round53_small. }
  destruct (round53_cases M Hbig) as (s & q & rem & Hs & HM & Hrem & Hq & Hr).
  assert (Hps : (0 < 2 ^ s)%Z) by (apply Z.pow_pos_nonneg; lia).
  assert (HqL : (c * 2 ^ e <= q * 2 ^ s)%Z).
  { destruct (Z.le_gt_cases s e) as [Hse|Hes].
    - destruct (pow2_split e s ltac:(lia)) as [Hpe Hone]. rewrite Hpe in *.
      revert HL Hone HM Hrem Hps. generalize (2 ^ (e - s))%Z (2 ^ s)%Z.
      intros E P **.
      assert (c * E <= q)%Z; [|nia].
      apply Z.lt_succ_r. apply (Z.mul_lt_mono_pos_r P); [done|]. lia.
    - pose proof (pow2_below e s ltac:(lia)) as Hb.
      assert (He0 : (0 < 2 ^ e)%Z) by (apply Z.pow_pos_nonneg; lia).
      revert Hb He0 Hps. generalize (2 ^ e)%Z (2 ^ s)%Z. intros E P **.
      literal_powers. nia. }
  revert Hr HqL Hps. generalize (2 ^ s)%Z (2 ^ e)%Z.
  intros P E [[-> _]|[-> _]] **; nia.
Qed.

(** Rounding does not go above a number of at most 53 bits that the
    integer is not above. *)
Lemma round53_le c e M :
  (0 <= c <= 2 ^ 53)%Z -> (0 <= e)%Z -> (0 <= M <= c * 2 ^ e)%Z ->
  (round53 M <= c * 2 ^ e)%Z.
Proof.
  intros Hc He HU.
  destruct (Z.lt_ge_cases M (2 ^ 53)) as [Hsm|Hbig].
  { rewrite round53_small by done. lia. }
  destruct (round53_cases M Hbig) as (s & q & rem & Hs & HM & Hrem & Hq & Hr).
  assert (Hps : (0 < 2 ^ s)%Z) by (apply Z.pow_pos_nonneg; lia).
  destruct Hr as [[-> _]|[-> Hup]]; [nia|].
  destruct (Z.le_gt_cases s e) as [Hse|Hes].
  - destruct (pow2_split e s ltac:(lia)) as [Hpe Hone]. rewrite Hpe in *.
    revert HU Hone HM Hrem Hps Hup. generalize (2 ^ (e - s))%Z (2 ^ s)%Z.
    intros E P **.
    assert (q + 1 <= c * E)%Z; [|nia].
    apply Z.le_succ_l. apply (Z.mul_lt_mono_pos_r P); [done|]. lia.
  - pose proof (pow2_below e s ltac:(lia)) as Hb.
    assert (He0 : (0 < 2 ^ e)%Z) by (apply Z.pow_pos_nonneg; lia).
    revert Hb He0 Hps HU HM Hrem Hup. generalize (2 ^ e)%Z (2 ^ s)%Z.
    intros E P **. literal_powers. nia.
Qed.

(** Rounding stays below [n * 2^k] when the integer is below it by at
    least the [2^53]-th part of it. *)
Lemma round53_lt n k M :
  (0 < n <= 2 ^ 53)%Z -> (0 <= k)%Z -> (0 <= M < n * 2 ^ k)%Z ->
  (n * 2 ^ k <= 2 ^ 53 * (n * 2 ^ k - M))%Z ->
  (round53 M < n * 2 ^ k)%Z.
Proof.
  intros Hn Hk HM Hmargin.
  destruct (Z.lt_ge_cases M (2 ^ 53)) as [Hsm|Hbig].
  { rewrite round53_small by done. lia. }
  destruct (round53_cases M Hbig) as (s & q & rem & Hs & HMq & Hrem & Hq & Hr).
  assert (Hps : (0 < 2 ^ s)%Z) by (apply Z.pow_pos_nonneg; lia).
  destruct (Z.le_gt_cases s k) as [Hsk|Hks].
  - destruct (pow2_split k s ltac:(lia)) as [Hpk Hone]. rewrite Hpk in *.
    revert HM Hmargin Hone HMq Hrem Hps Hr.
    generalize (2 ^ (k - s))%Z (2 ^ s)%Z. intros E P **.
    literal_powers.
    assert (Hq1 : (q + 1 <= n * E)%Z).
    { apply Z.le_succ_l. apply (Z.mul_lt_mono_pos_r P); [done|]. lia. }
    destruct Hr as [[-> _]|[-> Hup]]; [nia|].
    destruct (Z.eq_dec (q + 1) (n * E)) as [Heq|Hne]; [|nia].
    exfalso. nia.
  - pose proof (pow2_below k s ltac:(lia)) as Hb.
    assert (Hk0 : (0 < 2 ^ k)%Z) by (apply Z.pow_pos_nonneg; lia).
    revert Hb Hk0 Hps HM HMq Hrem. generalize (2 ^ k)%Z (2 ^ s)%Z.
    intros K P **. literal_powers. nia.
Qed.

End Rounding.

(** ** The random index *)

Section RandomIndex.

Local Open Scope Z_scope.

Lemma unit_interval_range (r : unit_interval) :
  (0 <= significand r < 2 ^ 53)%Z /\ (significand r < 2 ^ scale r)%Z
  /\ (0 <= scale r <= 1074)%Z.
Proof.
  destruct r as [m k H]. cbn [significand scale].
  rewrite !andb_true_iff in H. destruct H as [[[[H0 H1] H2] H3] H4].
  apply Z.leb_le in H0, H3, H4. apply Z.ltb_lt in H1, H2. lia.
Qed.

Lemma scale_pos (r : unit_interval) : Zpos (Z.to_pos (2 ^ scale r)) = (2 ^ scale r)%Z.
Proof.
  destruct (unit_interval_range r) as (_ & _ & Hk).
  apply Z2Pos.id. apply Z.pow_pos_nonneg; lia.
Qed.

(** The index: the rounded numerator of the product, divided. *)
Lemma pick_div (r : unit_interval) (n : nat) :
  pick r n = (round53 (significand r * Z.of_nat n) / 2 ^ scale r)%Z.
Proof.
  unfold pick, Math_floor, times, Qfloor. by rewrite scale_pos.
Qed.

(** The integer part of the exact product. *)
Lemma exact_div (r : unit_interval) (n : nat) :
  Qfloor (ui_val r * inject_Z (Z.of_nat n))
  = (significand r * Z.of_nat n / 2 ^ scale r)%Z.
Proof.
  unfold ui_val, Qfloor, Qmult, inject_Z. cbn [Qnum Qden].
  by rewrite Pos.mul_1_r, scale_pos.
Qed.

(** A double below 1 is below it by at least [2^-53]. *)
Lemma unit_margin (r : unit_interval) :
  (2 ^ scale r <= 2 ^ 53 * (2 ^ scale r - significand r))%Z.
Proof.
  destruct (unit_interval_range r) as (Hm & Hmk & Hk).
  destruct (Z.le_gt_cases (scale r) 53) as [Hle|Hgt].
  - pose proof (Z.pow_le_mono_r 2 (scale r) 53 ltac:(lia) Hle).
    assert (0 < 2 ^ scale r)%Z by (apply Z.pow_pos_nonneg; lia). nia.
  - pose proof (pow2_below 53 (scale r) ltac:(lia)).
    assert (0 < 2 ^ scale r)%Z by (apply Z.pow_pos_nonneg; lia).
    revert Hm Hmk H H0. generalize (2 ^ scale r)%Z. intros K **.
    literal_powers. nia.
Qed.

(** For a length [n] the index is within [0, n - 1]. *)
Lemma pick_range (r : unit_interval) (n : nat) :
  (0 < n)%nat -> (Z.of_nat n <= 2 ^ 53)%Z -> (0 <= pick r n < Z.of_nat n)%Z.
Proof.
  intros Hn Hn53. rewrite pick_div.
  destruct (unit_interval_range r) as (Hm & Hmk & Hk).
  pose proof (unit_margin r) as Hmargin.
  assert (HK : (0 < 2 ^ scale r)%Z) by (apply Z.pow_pos_nonneg; lia).
  split.
  - apply Z.div_pos; [|done].
    pose proof (round53_ge 0 0 (significand r * Z.of_nat n)
                  ltac:(lia) ltac:(lia) ltac:(nia)). lia.
  - apply Z.div_lt_upper_bound; [done|].
    rewrite (Z.mul_comm (2 ^ scale r)). apply round53_lt; [lia | lia | nia |].
    revert Hm Hmk Hmargin HK. generalize (2 ^ scale r)%Z (significand r).
    intros K m **. literal_powers. nia.
Qed.

(** The index is the integer part of the exact product, or the next
    integer. *)
Lemma pick_near (r : unit_interval) (n : nat) :
  (Z.of_nat n <= 2 ^ 53)%Z ->
  (Qfloor (ui_val r * inject_Z (Z.of_nat n)) <= pick r n
   <= Qfloor (ui_val r * inject_Z (Z.of_nat n)) + 1)%Z.
Proof.
  intros Hn53. rewrite pick_div, exact_div.
  destruct (unit_interval_range r) as (Hm & Hmk & Hk).
  assert (HK : (0 < 2 ^ scale r)%Z) by (apply Z.pow_pos_nonneg; lia).
  set (M := (significand r * Z.of_nat n)%Z).
  assert (HM : (0 <= M)%Z) by (unfold M; nia).
  assert (HMn : (M < Z.of_nat n * 2 ^ scale r)%Z \/ n = 0%nat).
  { destruct n; [by right | left]. unfold M. nia. }
  set (j := (M / 2 ^ scale r)%Z).
  pose proof (Z.mul_div_le M (2 ^ scale r) HK) as Hlo.
  pose proof (Z.mul_succ_div_gt M (2 ^ scale r) HK) as Hhi.
  fold j in Hlo, Hhi.
  assert (Hj0 : (0 <= j)%Z) by (apply Z.div_pos; lia).
  assert (Hjn : (j < 2 ^ 53)%Z).
  { destruct HMn as [HMn| ->].
    - assert (j < Z.of_nat n)%Z; [|lia].
      apply Z.div_lt_upper_bound; [done|]. lia.
    - unfold j, M. change (Z.of_nat 0) with 0.
      rewrite Z.mul_0_r, Z.div_0_l by lia. done. }
  split.
  - apply Z.div_le_lower_bound; [done|]. rewrite (Z.mul_comm (2 ^ scale r)).
    apply round53_ge; lia.
  - assert (round53 M <= (j + 1) * 2 ^ scale r)%Z
      by (apply round53_le; lia).
    assert (round53 M / 2 ^ scale r <= (j + 1) * 2 ^ scale r / 2 ^ scale r)%Z
      by (apply Z.div_le_mono; lia).
    rewrite Z.div_mul in * by lia. lia.
Qed.

(** The index is at most [j] when the exact product is below [j + 1] by
    at least the [2^53]-th part of it. *)
Lemma pick_le (r : unit_interval) (n j : nat) :
  (Z.of_nat j < 2 ^ 53)%Z ->
  (2 ^ 53 * (significand r * Z.of_nat n)
   <= (2 ^ 53 - 1) * (Z.of_nat (j + 1) * 2 ^ scale r))%Z ->
  (pick r n <= Z.of_nat j)%Z.
Proof.
  intros Hj Hmargin. rewrite pick_div.
  destruct (unit_interval_range r) as (Hm & Hmk & Hk).
  assert (HK : (0 < 2 ^ scale r)%Z) by (apply Z.pow_pos_nonneg; lia).
  apply Z.lt_succ_r. apply Z.div_lt_upper_bound; [done|].
  rewrite (Z.mul_comm (2 ^ scale r)).
  replace (Z.succ (Z.of_nat j)) with (Z.of_nat (j + 1)) by lia.
  assert (HM0 : (0 <= significand r * Z.of_nat n)%Z) by nia.
  assert (Hj1 : (0 < Z.of_nat (j + 1) <= 2 ^ 53)%Z) by lia.
  revert Hmargin HM0 Hj1. generalize (significand r * Z.of_nat n)%Z (Z.of_nat (j + 1)).
  intros M J Hmargin HM0 Hj1.
  apply round53_lt; [done | lia | |].
  - revert Hmargin HK. generalize (2 ^ scale r)%Z. intros K **.
    literal_powers. nia.
  - revert Hmargin HK. generalize (2 ^ scale r)%Z. intros K **.
    literal_powers. nia.
Qed.

Lemma pick_exact (r : unit_interval) (n j : nat) :
  (Z.of_nat j < 2 ^ 53)%Z ->
  (inject_Z (Z.of_nat j) <= ui_val r * inject_Z (Z.of_nat n))%Q ->
  (ui_val r * inject_Z (Z.of_nat n)
   <= inject_Z (Z.of_nat (j + 1)) * (1 - (1 # 2 ^ 53)))%Q ->
  pick r n = Z.of_nat j.
Proof.
  intros Hj Hlo Hhi.
  unfold Qle, Qmult, Qminus, Qplus, Qopp, inject_Z, ui_val in Hlo, Hhi.
  cbn [Qnum Qden] in Hlo, Hhi.
  rewrite ?Pos.mul_1_r, ?Pos.mul_1_l, ?Pos2Z.inj_mul, ?scale_pos in Hlo, Hhi.
  change (Z.pos (1 * (1 * 2 ^ 53))) with (2 ^ 53)%Z in Hhi.
  change (Z.pos (2 ^ 53)) with (2 ^ 53)%Z in Hhi.
  destruct (unit_interval_range r) as (Hm & Hmk & Hk).
  assert (HK : (0 < 2 ^ scale r)%Z) by (apply Z.pow_pos_nonneg; lia).
  apply Z.le_antisymm.
  - apply pick_le; [done|]. lia.
  - rewrite pick_div. apply Z.div_le_lower_bound; [done|].
    rewrite (Z.mul_comm (2 ^ scale r)). apply round53_ge; lia.
Qed.

Lemma clamp53_id m : (0 <= m < 2 ^ 53)%Z -> clamp53 m = m.
Proof. unfold clamp53. lia. Qed.

(** The draw made for the index [j] of a length [n] gives [j]. *)
Lemma pick_drawFor (j n : nat) :
  (j < n)%nat -> (Z.of_nat n <= 2 ^ 52)%Z -> pick (drawFor j n) n = Z.of_nat j.
Proof.
  intros Hj Hn. rewrite pick_div. unfold drawFor, binary53.
  cbn [significand scale].
  set (m := ((Z.of_nat j * 2 ^ 53 + Z.of_nat n - 1) / Z.of_nat n)%Z).
  assert (Hn0 : (0 < Z.of_nat n)%Z) by lia.
  pose proof (Z.mul_div_le (Z.of_nat j * 2 ^ 53 + Z.of_nat n - 1) (Z.of_nat n) Hn0) as Hlo.
  pose proof (Z.mul_succ_div_gt (Z.of_nat j * 2 ^ 53 + Z.of_nat n - 1) (Z.of_nat n) Hn0) as Hhi.
  fold m in Hlo, Hhi.
  assert (Hm0 : (0 <= m)%Z) by (apply Z.div_pos; lia).
  assert (Hm53 : (m < 2 ^ 53)%Z).
  { apply Z.div_lt_upper_bound; [done|]. literal_powers. nia. }
  rewrite clamp53_id by lia.
  assert (HM : (Z.of_nat j * 2 ^ 53 <= m * Z.of_nat n
                < Z.of_nat j * 2 ^ 53 + Z.of_nat n)%Z) by lia.
  symmetry. apply (Z.div_unique_pos _ _ _
    (round53 (m * Z.of_nat n) - Z.of_nat j * 2 ^ 53)); [|ring].
  split.
  - pose proof (round53_ge (Z.of_nat j) 53 (m * Z.of_nat n)
                  ltac:(literal_powers; lia) ltac:(lia) ltac:(lia)). lia.
  - assert (round53 (m * Z.of_nat n) < (Z.of_nat j + 1) * 2 ^ 53)%Z; [|lia].
    apply round53_lt; [literal_powers; lia | lia | lia |].
    literal_powers. nia.
Qed.

End RandomIndex.

Lemma drawn_0 st : drawn 0 st = st.
Proof. by destruct st. Qed.

Lemma drawn_drawn n m st : drawn n (drawn m st) = drawn (n + m) st.
Proof. unfold drawn. simpl. f_equal. lia. Qed.

(** ** Running the generator *)

Section Runs.

Variable random : nat -> unit_interval.

Lemma randomIndex_run n st :
  randomIndex random n st = Return (pick (random (calls st)) n) (drawn 1 st).
Proof. reflexivity. Qed.

Lemma charAt_pick chars (r : unit_interval) :
  chars <> [] ->
  (Z.of_nat (length chars) <= 2 ^ 53)%Z ->
  exists c, charAt chars (pick r (length chars)) = [c] /\ c ∈ chars.
Proof.
  intros Hne Hshort.
  assert (Hlen : (0 < length chars)%nat) by (destruct chars; simpl; [done | lia]).
  pose proof (pick_range r _ Hlen Hshort) as [H0 H1].
  unfold charAt.
  destruct (Z.ltb_spec (pick r (length chars)) 0) as [?|_]; [lia|].
  destruct (chars !! Z.to_nat (pick r (length chars))) as [c|] eqn:Hc.
  - exists c. split; [done|]. by eapply list_elem_of_lookup_2.
  - apply lookup_ge_None in Hc. lia.
Qed.

Lemma getRandomChar_run chars st :
  chars <> [] ->
  (Z.of_nat (length chars) <= 2 ^ 53)%Z ->
  exists c, getRandomChar random chars st = Return [c] (drawn 1 st) /\ c ∈ chars.
Proof.
  intros Hne Hshort.
  destruct (charAt_pick chars (random (calls st)) Hne Hshort) as (c & Hc & Hin).
  exists c. split; [|done].
  unfold getRandomChar, bind. rewrite randomIndex_run. unfold ret. by rewrite Hc.
Qed.

Lemma addClass_run (include : bool) set availableChars guaranteedChars st :
  set <> [] /\ (Z.of_nat (length set) <= 2 ^ 53)%Z ->
  exists added,
    addClass random include set (availableChars, guaranteedChars) st
    = Return (availableChars ++ (if include then set else []),
              guaranteedChars ++ added)
             (drawn (if include then 1 else 0) st)
    /\ length added = (if include then 1 else 0)%nat
    /\ Forall (charOf set) added.
Proof.
  intros [Hne Hshort]. destruct include; simpl.
  - destruct (getRandomChar_run set st Hne Hshort) as (c & Hrun & Hin).
    exists [VString [c]]. unfold bind. rewrite Hrun.
    split; [done|]. split; [done|]. apply Forall_singleton. by exists c.
  - exists []. rewrite !app_nil_r, drawn_0. by split.
Qed.

Lemma class_nonempty :
  (CHAR_SETS.lowercase <> [] /\ (Z.of_nat (length CHAR_SETS.lowercase) <= 2 ^ 53)%Z)
  /\ (CHAR_SETS.uppercase <> [] /\ (Z.of_nat (length CHAR_SETS.uppercase) <= 2 ^ 53)%Z)
  /\ (CHAR_SETS.numbers <> [] /\ (Z.of_nat (length CHAR_SETS.numbers) <= 2 ^ 53)%Z)
  /\ (CHAR_SETS.symbols <> [] /\ (Z.of_nat (length CHAR_SETS.symbols) <= 2 ^ 53)%Z).
Proof. by repeat split. Qed.

(** The pool has at most 88 characters. *)
Lemma canonicalPool_short cfg : (Z.of_nat (length (canonicalPool cfg)) <= 2 ^ 53)%Z.
Proof.
  assert (length (canonicalPool cfg) <= 88)%nat; [|lia].
  unfold canonicalPool. rewrite !length_app.
  destruct (Settings.includeLowercase cfg), (Settings.includeUppercase cfg),
    (Settings.includeNumbers cfg), (Settings.includeSymbols cfg); cbn; lia.
Qed.

(** The four blocks in sequence: the pool is the canonical one, and each
    enabled class has pushed one of its characters, in the same order. *)
Lemma collectChars_run cfg st :
  exists lo up nu sy,
    collectChars random cfg st
    = Return (canonicalPool cfg, lo ++ up ++ nu ++ sy)
             (drawn (enabledCount cfg) st)
    /\ (length lo = if Settings.includeLowercase cfg then 1 else 0)%nat
    /\ (length up = if Settings.includeUppercase cfg then 1 else 0)%nat
    /\ (length nu = if Settings.includeNumbers cfg then 1 else 0)%nat
    /\ (length sy = if Settings.includeSymbols cfg then 1 else 0)%nat
    /\ Forall (charOf CHAR_SETS.lowercase) lo
    /\ Forall (charOf CHAR_SETS.uppercase) up
    /\ Forall (charOf CHAR_SETS.numbers) nu
    /\ Forall (charOf CHAR_SETS.symbols) sy.
Proof.
  destruct class_nonempty as (Hl & Hu & Hn & Hs).
  unfold collectChars, bind.
  destruct (addClass_run (Settings.includeLowercase cfg) _ [] [] st Hl)
    as (lo & -> & Llo & Flo).
  destruct (addClass_run (Settings.includeUppercase cfg) _
              ([] ++ (if Settings.includeLowercase cfg then CHAR_SETS.lowercase else []))
              ([] ++ lo) (drawn (if Settings.includeLowercase cfg then 1 else 0) st) Hu)
    as (up & -> & Lup & Fup).
  match goal with |- context [addClass _ _ _ (?av, ?gu) ?s] =>
    destruct (addClass_run (Settings.includeNumbers cfg) _ av gu s Hn)
      as (nu & -> & Lnu & Fnu) end.
  match goal with |- context [addClass _ _ _ (?av, ?gu) ?s] =>
    destruct (addClass_run (Settings.includeSymbols cfg) _ av gu s Hs)
      as (sy & -> & Lsy & Fsy) end.
  exists lo, up, nu, sy. split; [|done].
  rewrite !drawn_drawn. unfold canonicalPool, enabledCount. simpl.
  rewrite <- !app_assoc. do 2 f_equal. lia.
Qed.

Lemma charOf_weaken chars chars' v :
  (forall c, c ∈ chars -> c ∈ chars') -> charOf chars v -> charOf chars' v.
Proof. intros Hsub (c & -> & Hc). exists c. auto. Qed.

(** The guaranteed characters: one per enabled class, all from the pool. *)
Lemma collectChars_summary cfg st :
  exists guaranteedChars,
    collectChars random cfg st
    = Return (canonicalPool cfg, guaranteedChars) (drawn (enabledCount cfg) st)
    /\ length guaranteedChars = enabledCount cfg
    /\ Forall (charOf (canonicalPool cfg)) guaranteedChars
    /\ (Settings.includeLowercase cfg = true ->
        Exists (charOf CHAR_SETS.lowercase) guaranteedChars)
    /\ (Settings.includeUppercase cfg = true ->
        Exists (charOf CHAR_SETS.uppercase) guaranteedChars)
    /\ (Settings.includeNumbers cfg = true ->
        Exists (charOf CHAR_SETS.numbers) guaranteedChars)
    /\ (Settings.includeSymbols cfg = true ->
        Exists (charOf CHAR_SETS.symbols) guaranteedChars).
Proof.
  destruct (collectChars_run cfg st)
    as (lo & up & nu & sy & Hrun & Llo & Lup & Lnu & Lsy & Flo & Fup & Fnu & Fsy).
  exists (lo ++ up ++ nu ++ sy). split; [done|].
  split; [rewrite !length_app; unfold enabledCount; lia|].
  assert (Hhead : forall (P : value -> Prop) (l : list value) (b : bool),
             (length l = if b then 1 else 0)%nat -> Forall P l -> b = true -> Exists P l).
  { intros P [|v l] b Hlen HP ->; [done|]. apply Exists_cons_hd. by inversion HP. }
  split.
  - unfold canonicalPool. rewrite !Forall_app. repeat split.
    + destruct (Settings.includeLowercase cfg); [|by destruct lo].
      eapply Forall_impl; [exact Flo|]. intros v. apply charOf_weaken.
      intros c Hc. rewrite !elem_of_app. auto.
    + destruct (Settings.includeUppercase cfg); [|by destruct up].
      eapply Forall_impl; [exact Fup|]. intros v. apply charOf_weaken.
      intros c Hc. rewrite !elem_of_app. auto.
    + destruct (Settings.includeNumbers cfg); [|by destruct nu].
      eapply Forall_impl; [exact Fnu|]. intros v. apply charOf_weaken.
      intros c Hc. rewrite !elem_of_app. auto.
    + destruct (Settings.includeSymbols cfg); [|by destruct sy].
      eapply Forall_impl; [exact Fsy|]. intros v. apply charOf_weaken.
      intros c Hc. rewrite !elem_of_app. auto.
  - rewrite !Exists_app. repeat split; intros Hb; eauto 8.
Qed.

Lemma fillArray_run availableChars n st :
  availableChars <> [] ->
  (Z.of_nat (length availableChars) <= 2 ^ 53)%Z ->
  exists filled,
    fillArray n (c <- getRandomChar random availableChars ;; ret (VString c)) st
    = Return filled (drawn n st)
    /\ length filled = n
    /\ Forall (charOf availableChars) filled.
Proof.
  intros Hne Hshort. revert st.
  induction n as [|n IH]; intros st; simpl.
  - exists []. unfold ret. by rewrite drawn_0.
  - destruct (getRandomChar_run availableChars st Hne Hshort) as (c & Hc & Hin).
    destruct (IH (drawn 1 st)) as (rest & Hrest & Hlen & Hall).
    exists (VString [c] :: rest). unfold bind in *. rewrite Hc. unfold ret at 1.
    rewrite Hrest. unfold ret. rewrite drawn_drawn.
    replace (n + 1)%nat with (S n) by lia.
    split; [done|]. split; [simpl; lia|].
    constructor; [by exists c | done].
Qed.

(** Up to the largest array length the fill has [remainingLength]
    characters of the pool, none when that is negative. *)
Lemma fillChars_run availableChars remainingLength st :
  availableChars <> [] ->
  (Z.of_nat (length availableChars) <= 2 ^ 53)%Z ->
  (remainingLength <= maxArrayLength)%Z ->
  exists filled,
    fillChars random availableChars remainingLength st
    = Return filled (drawn (Z.to_nat remainingLength) st)
    /\ length filled = Z.to_nat remainingLength
    /\ Forall (charOf availableChars) filled.
Proof.
  intros Hne Hshort Hmax. unfold fillChars, Array_from.
  assert (Hlen : Z.to_nat (ToLength remainingLength) = Z.to_nat remainingLength).
  { unfold ToLength, maxArrayLength in *. lia. }
  destruct (Z.ltb_spec maxArrayLength (ToLength remainingLength)) as [Hover|_].
  { unfold ToLength, maxArrayLength in *. lia. }
  rewrite Hlen. by apply fillArray_run.
Qed.

(** Beyond it [Array.from] throws before any character is drawn. *)
Lemma fillChars_overflow availableChars remainingLength st :
  (maxArrayLength < remainingLength)%Z ->
  fillChars random availableChars remainingLength st = Throw RangeError st.
Proof.
  intros Hover. unfold fillChars, Array_from.
  destruct (Z.ltb_spec maxArrayLength (ToLength remainingLength)) as [_|Hle];
    [done|].
  unfold ToLength, maxArrayLength in *. lia.
Qed.

End Runs.

(** ** Exchanges and the Fisher-Yates pass on lists *)

Section Swap.

Context {A : Type}.
Implicit Types l : list A.

Lemma swap_length l i j : length (swap l i j) = length l.
Proof.
  unfold swap. destruct (l !! i), (l !! j); try done.
  by rewrite !length_insert.
Qed.

Lemma swap_perm l i j : swap l i j ≡ₚ l.
Proof.
  unfold swap. destruct (l !! i) as [x|] eqn:Hi, (l !! j) as [y|] eqn:Hj; try done.
  by apply Permutation_insert_swap.
Qed.

Lemma fisherYates_perm choose i l : fisherYates choose i l ≡ₚ l.
Proof.
  revert l. induction i as [|i IH]; intros l; simpl; [done|].
  by rewrite IH, swap_perm.
Qed.

End Swap.

(** The two assignments of the destructuring exchange, inside the array. *)
Lemma array_exchange (a : list value) (i j : nat) :
  (i < length a)%nat -> (j < length a)%nat ->
  array_set (array_set a i (array_get a j)) j (array_get a i) = swap a i j.
Proof.
  intros Hi Hj. unfold array_set, array_get, swap.
  destruct (lookup_lt_is_Some_2 a i Hi) as [x ->].
  destruct (lookup_lt_is_Some_2 a j Hj) as [y ->].
  destruct (decide (i < length a)%nat) as [_|]; [|done].
  destruct (decide (j < length (<[i:=y]> a))%nat) as [_|Hn]; [done|].
  by rewrite length_insert in Hn.
Qed.

(** ** Running the shuffle *)

Section Shuffle.

Variable random : nat -> unit_interval.

Lemma chosen_le k n i :
  (Z.of_nat (i + 1) <= 2 ^ 53)%Z -> (chosen random k n i <= i)%nat.
Proof.
  intros Hi. unfold chosen.
  pose proof (pick_range (random (k + (n - 1 - i))) (i + 1) ltac:(lia) Hi). lia.
Qed.

(** Whatever the indices drawn, the loop writes to the array behind
    [shuffled] only, and makes [i] draws. *)
Lemma shuffleLoop_frame shuffled i :
  forall st,
    (shuffled < length (heap st))%nat ->
    exists a',
      shuffleLoop random shuffled i st
      = Return tt (mkState (i + calls st) (<[shuffled := a']> (heap st))).
Proof.
  induction i as [|i IH]; intros st Hl.
  - destruct (lookup_lt_is_Some_2 _ _ Hl) as [a Ha]. exists a.
    simpl. unfold ret. destruct st as [c h]; simpl in *. by rewrite list_insert_id.
  - destruct (lookup_lt_is_Some_2 _ _ Hl) as [a Ha].
    cbn [shuffleLoop]. unfold bind at 1. rewrite randomIndex_run.
    unfold bind at 1. unfold load at 1. cbn [drawn heap calls]. rewrite Ha.
    unfold bind at 1. unfold store at 1. cbn [heap calls fst snd].
    unfold bind at 1. unfold load at 1. cbn [heap calls].
    rewrite list_lookup_insert_eq by done.
    unfold bind at 1. unfold store at 1. cbn [heap calls].
    rewrite list_insert_insert_eq.
    match goal with |- context [shuffleLoop _ _ _ ?st'] =>
      destruct (IH st') as (a' & ->) end.
    { unfold drawn. cbn [heap]. by rewrite length_insert. }
    exists a'. unfold drawn. cbn [heap calls].
    rewrite ?list_insert_insert_eq. do 2 f_equal. lia.
Qed.

(** The loop from index [i] down to 1 performs, on the array behind
    [shuffled], the Fisher-Yates pass whose choices are the successive
    random indices, and makes [i] draws. *)
Lemma shuffleLoop_run shuffled choose i :
  forall st a,
    heap st !! shuffled = Some a ->
    (i <= length a - 1)%nat ->
    (Z.of_nat (length a) <= 2 ^ 53)%Z ->
    (forall k, (1 <= k <= i)%nat ->
       choose k = Z.to_nat (pick (random (calls st + (i - k))) (k + 1))) ->
    shuffleLoop random shuffled i st
    = Return tt (mkState (i + calls st)
                   (<[shuffled := fisherYates choose i a]> (heap st))).
Proof.
  induction i as [|i IH]; intros st a Ha Hi Hshort Hch.
  - simpl. unfold ret. destruct st as [c h]; simpl in *. by rewrite list_insert_id.
  - pose proof (lookup_lt_Some _ _ _ Ha) as Hl.
    assert (Hj : choose (S i) = Z.to_nat (pick (random (calls st)) (S i + 1))).
    { rewrite (Hch (S i)) by lia. do 3 f_equal. lia. }
    assert (Hji : (choose (S i) <= S i)%nat).
    { rewrite Hj.
      pose proof (pick_range (random (calls st)) (S i + 1) ltac:(lia)
                    ltac:(lia)).
      lia. }
    cbn [shuffleLoop]. unfold bind at 1. rewrite randomIndex_run.
    unfold bind at 1. unfold load at 1. cbn [drawn heap calls]. rewrite Ha.
    unfold bind at 1. unfold store at 1. cbn [heap calls fst snd].
    unfold bind at 1. unfold load at 1. cbn [heap calls].
    rewrite list_lookup_insert_eq by done.
    unfold bind at 1. unfold store at 1. cbn [heap calls].
    rewrite list_insert_insert_eq, <- Hj, array_exchange by lia.
    rewrite (IH _ (swap a (S i) (choose (S i)))).
    + unfold drawn. cbn [heap calls fisherYates].
      rewrite ?list_insert_insert_eq. do 2 f_equal. lia.
    + cbn [heap]. by apply list_lookup_insert_eq.
    + rewrite swap_length. lia.
    + by rewrite swap_length.
    + intros k Hk. unfold drawn. cbn [calls]. rewrite Hch by lia.
      do 3 f_equal. lia.
Qed.

(** [shuffleArray] allocates a copy, shuffles the copy and returns it. *)
Lemma shuffleArray_run array a st :
  heap st !! array = Some a ->
  (Z.of_nat (length a) <= 2 ^ 53)%Z ->
  shuffleArray random array st
  = Return (length (heap st))
      (mkState (length a - 1 + calls st)
         (heap st ++ [fisherYates (chosen random (calls st) (length a))
                        (length a - 1) a])).
Proof.
  intros Ha Hshort. pose proof (lookup_lt_Some _ _ _ Ha) as Hl.
  unfold shuffleArray. unfold bind at 1. unfold load at 1. rewrite Ha.
  unfold bind at 1. unfold alloc at 1.
  unfold bind at 1. unfold load at 1. cbn [heap calls].
  rewrite lookup_app_r, Nat.sub_diag by lia. cbn [lookup list_lookup].
  unfold bind at 1.
  rewrite (shuffleLoop_run _ (chosen random (calls st) (length a)) _ _ a).
  - unfold ret. cbn [heap calls]. f_equal. f_equal.
    rewrite insert_app_r_alt, Nat.sub_diag by lia. done.
  - cbn [heap]. by rewrite lookup_app_r, Nat.sub_diag by lia.
  - lia.
  - done.
  - intros k Hk. cbn [calls]. unfold chosen. done.
Qed.

(** Whatever the array, [shuffleArray] returns a new array and writes to
    it only. *)
Lemma shuffleArray_frame array a st :
  heap st !! array = Some a ->
  exists a',
    shuffleArray random array st
    = Return (length (heap st))
        (mkState (length a - 1 + calls st) (heap st ++ [a'])).
Proof.
  intros Ha. pose proof (lookup_lt_Some _ _ _ Ha) as Hl.
  unfold shuffleArray. unfold bind at 1. unfold load at 1. rewrite Ha.
  unfold bind at 1. unfold alloc at 1.
  unfold bind at 1. unfold load at 1. cbn [heap calls].
  rewrite lookup_app_r, Nat.sub_diag by lia. cbn [lookup list_lookup].
  unfold bind at 1.
  match goal with |- context [shuffleLoop _ ?l ?i ?st'] =>
    destruct (shuffleLoop_frame l i st') as (a' & ->) end.
  { cbn [heap]. rewrite length_app. simpl. lia. }
  exists a'. unfold ret. cbn [heap calls]. f_equal. f_equal.
  rewrite insert_app_r_alt, Nat.sub_diag by lia. done.
Qed.

End Shuffle.

(** ** Joining *)

Lemma join_perm (a b : list value) : a ≡ₚ b -> join a ≡ₚ join b.
Proof.
  unfold join. induction 1 as [|v a b _ IH|v w a|a b c _ IH1 _ IH2]; simpl.
  - done.
  - by rewrite IH.
  - rewrite !app_assoc. f_equiv. apply Permutation_app_comm.
  - by rewrite IH1.
Qed.

Lemma join_cons (v : value) (a : list value) :
  join (v :: a) = match v with VString s => s | VUndefined => [] end ++ join a.
Proof. reflexivity. Qed.

(** An array of one-unit strings joins to a string of the same length,
    made of the units of its elements. *)
Lemma join_chars chars (a : list value) :
  Forall (charOf chars) a ->
  length (join a) = length a /\ Forall (fun c => c ∈ chars) (join a).
Proof.
  induction 1 as [|v a (c & -> & Hc) _ [IHl IHf]]; [done|].
  rewrite join_cons. simpl. split; [by rewrite IHl | by constructor].
Qed.

Lemma join_exists chars chars' (a : list value) :
  Forall (charOf chars') a ->
  Exists (charOf chars) a -> exists c, c ∈ join a /\ c ∈ chars.
Proof.
  intros Hall. induction 1 as [v a (c & -> & Hc)|v a _ IH].
  - exists c. rewrite join_cons. split; [left | done].
  - inversion Hall as [|? ? (d & -> & _) Hall']; subst.
    destruct (IH Hall') as (c & Hin & Hc). exists c.
    rewrite join_cons. split; [by right | done].
Qed.

(** ** Running [generateSecurePassword] *)

Lemma canonicalPool_empty cfg :
  canonicalPool cfg = [] <-> validateSettings cfg = false.
Proof. destruct cfg as [n [] [] [] []]; by split. Qed.

Lemma enabledCount_le cfg : (enabledCount cfg <= 4)%nat.
Proof.
  unfold enabledCount.
  destruct (Settings.includeLowercase cfg), (Settings.includeUppercase cfg),
    (Settings.includeNumbers cfg), (Settings.includeSymbols cfg); simpl; lia.
Qed.

Section Generate.

Variable random : nat -> unit_interval.

(** With no class enabled the generator throws in the state it was called
    in. *)
Lemma generate_throws cfg st :
  validateSettings cfg = false ->
  generateSecurePassword random cfg st = Throw (Error noClassMessage) st.
Proof.
  intros Hv. destruct cfg as [n [] [] [] []]; try discriminate Hv.
  by destruct st.
Qed.

(** With some class enabled and a length that an array can have, the
    generator returns; the run is written out: the draws, the array that
    is shuffled and its shuffled copy. *)
Lemma generate_effects cfg st :
  validateSettings cfg = true ->
  (Settings.length cfg <= maxArrayLength)%Z ->
  exists guaranteedChars filled shuffled,
    collectChars random cfg st
    = Return (canonicalPool cfg, guaranteedChars) (drawn (enabledCount cfg) st)
    /\ fillChars random (canonicalPool cfg)
         (Settings.length cfg - Z.of_nat (length guaranteedChars))
         (drawn (enabledCount cfg) st)
       = Return filled
           (drawn (Z.to_nat (Settings.length cfg
                             - Z.of_nat (length guaranteedChars)))
              (drawn (enabledCount cfg) st))
    /\ generateSecurePassword random cfg st
       = Return (join shuffled)
           (mkState (2 * length shuffled - 1 + calls st)
              (heap st ++ [guaranteedChars ++ filled; shuffled]))
    /\ generatedFrom cfg guaranteedChars filled (join shuffled)
    /\ shuffled ≡ₚ guaranteedChars ++ filled.
Proof.
  intros Hvalid Hmax.
  assert (Hpool : canonicalPool cfg <> []).
  { intros He. apply canonicalPool_empty in He. congruence. }
  pose proof (canonicalPool_short cfg) as Hshort.
  pose proof (enabledCount_le cfg) as Hcount.
  destruct (collectChars_summary random cfg st)
    as (gu & Hcollect & Hlen & Hall & Hlo & Hup & Hnu & Hsy).
  destruct (fillChars_run random (canonicalPool cfg)
              (Settings.length cfg - Z.of_nat (length gu))
              (drawn (enabledCount cfg) st) Hpool Hshort ltac:(lia))
    as (filled & Hfill & Hflen & Hfall).
  set (n := Z.to_nat (Settings.length cfg - Z.of_nat (length gu))) in *.
  set (a := gu ++ filled).
  assert (Ha : length a = (enabledCount cfg + n)%nat).
  { unfold a. rewrite length_app. lia. }
  assert (Hamax : (Z.of_nat (length a) <= maxArrayLength)%Z).
  { rewrite Ha. unfold n, maxArrayLength in *. lia. }
  set (sh := fisherYates (chosen random (n + (enabledCount cfg + calls st)) (length a))
               (length a - 1) a).
  assert (Hsh : sh ≡ₚ a) by apply fisherYates_perm.
  exists gu, filled, sh.
  split; [done|]. split; [done|]. split; [|split; [|done]].
  - unfold generateSecurePassword. unfold bind at 1. rewrite Hcollect.
    destruct (length (canonicalPool cfg) =? 0)%nat eqn:Hz.
    { apply Nat.eqb_eq in Hz. by destruct (canonicalPool cfg). }
    unfold bind at 1. rewrite Hfill.
    unfold bind at 1. unfold concat at 1. rewrite <- length_app. fold a.
    destruct (Z.ltb_spec maxArrayLength (Z.of_nat (length a))); [lia|].
    unfold alloc at 1.
    unfold bind at 1.
    rewrite (shuffleArray_run random _ a).
    + cbn [heap calls drawn]. unfold bind, load. cbn [heap].
      rewrite lookup_app_r, Nat.sub_diag by lia. cbn [lookup list_lookup].
      unfold ret. rewrite <- app_assoc. cbn [app]. fold sh.
      rewrite (Permutation_length Hsh). do 2 f_equal. lia.
    + cbn [heap drawn]. by rewrite lookup_app_r, Nat.sub_diag by lia.
    + unfold maxArrayLength in *. lia.
  - exists sh. split; [done|]. split; [done|]. split; [done|].
    split; [unfold n in Hflen; by rewrite Hflen, Hlen|].
    split; [by apply Forall_app|]. done.
Qed.

(** With some class enabled and a length beyond what an array can have,
    the generator throws a [RangeError]: in [Array.from], after the
    guaranteed characters only, when the fill alone is too long, and else
    in [concat], after the fill. *)
Lemma generate_overflow cfg st :
  validateSettings cfg = true ->
  (maxArrayLength < Settings.length cfg)%Z ->
  exists draws,
    generateSecurePassword random cfg st
    = Throw RangeError (mkState (draws + calls st) (heap st))
    /\ draws
       = if decide (maxArrayLength
                    < Settings.length cfg - Z.of_nat (enabledCount cfg))%Z
         then enabledCount cfg
         else (enabledCount cfg
               + Z.to_nat (Settings.length cfg - Z.of_nat (enabledCount cfg)))%nat.
Proof.
  intros Hvalid Hover.
  assert (Hpool : canonicalPool cfg <> []).
  { intros He. apply canonicalPool_empty in He. congruence. }
  pose proof (canonicalPool_short cfg) as Hshort.
  destruct (collectChars_summary random cfg st)
    as (gu & Hcollect & Hlen & _).
  eexists. split; [|reflexivity].
  unfold generateSecurePassword. unfold bind at 1. rewrite Hcollect.
  destruct (length (canonicalPool cfg) =? 0)%nat eqn:Hz.
  { apply Nat.eqb_eq in Hz. by destruct (canonicalPool cfg). }
  rewrite Hlen. case_decide as Hfill.
  - unfold bind at 1. rewrite fillChars_overflow by done. done.
  - destruct (fillChars_run random (canonicalPool cfg)
                (Settings.length cfg - Z.of_nat (enabledCount cfg))
                (drawn (enabledCount cfg) st) Hpool Hshort ltac:(lia))
      as (filled & Hrun & Hflen & _).
    unfold bind at 1. rewrite Hrun.
    unfold bind at 1. unfold concat at 1.
    destruct (Z.ltb_spec maxArrayLength (Z.of_nat (length gu + length filled)))
      as [_|Hle]; [|lia].
    unfold throw. rewrite drawn_drawn. unfold drawn. do 2 f_equal. lia.
Qed.

(** The generator returns for exactly the configurations with a class
    enabled and a length that an array can have. *)
Lemma generate_returns cfg st :
  validateSettings cfg = true ->
  (Settings.length cfg <= maxArrayLength)%Z ->
  exists s st', generateSecurePassword random cfg st = Return s st'.
Proof.
  intros Hvalid Hmax.
  destruct (generate_effects cfg st Hvalid Hmax) as (gu & fi & sh & _ & _ & -> & _).
  eauto.
Qed.

Lemma generate_return_inv cfg st s st' :
  generateSecurePassword random cfg st = Return s st' ->
  validateSettings cfg = true /\ (Settings.length cfg <= maxArrayLength)%Z.
Proof.
  intros Hgen.
  destruct (validateSettings cfg) eqn:Hvalid.
  - split; [done|]. destruct (Z.le_gt_cases (Settings.length cfg) maxArrayLength)
      as [Hle|Hgt]; [done|].
    destruct (generate_overflow cfg st Hvalid Hgt) as (draws & Hthrow & _).
    congruence.
  - rewrite generate_throws in Hgen by done. discriminate.
Qed.

(** Every returned password is generated from the guaranteed characters
    and the fill of the run. *)
Lemma generate_return_facts cfg st s st' :
  generateSecurePassword random cfg st = Return s st' ->
  exists guaranteedChars filled,
    collectChars random cfg st
    = Return (canonicalPool cfg, guaranteedChars) (drawn (enabledCount cfg) st)
    /\ fillChars random (canonicalPool cfg)
         (Settings.length cfg - Z.of_nat (length guaranteedChars))
         (drawn (enabledCount cfg) st)
       = Return filled
           (drawn (Z.to_nat (Settings.length cfg
                             - Z.of_nat (length guaranteedChars)))
              (drawn (enabledCount cfg) st))
    /\ generatedFrom cfg guaranteedChars filled s
    /\ calls st' = (2 * length s - 1 + calls st)%nat.
Proof.
  intros Hgen. destruct (generate_return_inv cfg st s st' Hgen) as [Hvalid Hmax].
  destruct (generate_effects cfg st Hvalid Hmax)
    as (gu & fi & sh & Hcollect & Hfill & Hrun & Hfrom & Hperm).
  rewrite Hrun in Hgen. injection Hgen as <- <-.
  exists gu, fi. split; [done|]. split; [done|]. split; [done|].
  cbn [calls].
  destruct Hfrom as (sh' & _ & _ & _ & _ & Hall & _).
  assert (Hall' : Forall (charOf (canonicalPool cfg)) sh) by by rewrite Hperm.
  destruct (join_chars _ _ Hall') as [-> _]. done.
Qed.

End Generate.

(** ** What a generated password is made of *)

Lemma generatedFrom_length cfg gu fi s :
  generatedFrom cfg gu fi s ->
  Z.of_nat (length s)
  = Z.max (Settings.length cfg) (Z.of_nat (enabledCount cfg)).
Proof.
  intros (sh & -> & Hperm & Hgu & Hfi & Hall & _).
  assert (Hall' : Forall (charOf (canonicalPool cfg)) sh) by by rewrite Hperm.
  destruct (join_chars _ _ Hall') as [-> _].
  rewrite Hperm, length_app, Hgu, Hfi. lia.
Qed.

Lemma generatedFrom_pool cfg gu fi s c :
  generatedFrom cfg gu fi s -> c ∈ s -> c ∈ canonicalPool cfg.
Proof.
  intros (sh & -> & Hperm & _ & _ & Hall & _) Hc.
  assert (Hall' : Forall (charOf (canonicalPool cfg)) sh) by by rewrite Hperm.
  destruct (join_chars _ _ Hall') as [_ Hin].
  rewrite Forall_forall in Hin. by apply Hin.
Qed.

Lemma generatedFrom_classes cfg gu fi s :
  generatedFrom cfg gu fi s ->
  (Settings.includeLowercase cfg = true ->
   exists c, c ∈ s /\ c ∈ CHAR_SETS.lowercase)
  /\ (Settings.includeUppercase cfg = true ->
      exists c, c ∈ s /\ c ∈ CHAR_SETS.uppercase)
  /\ (Settings.includeNumbers cfg = true ->
      exists c, c ∈ s /\ c ∈ CHAR_SETS.numbers)
  /\ (Settings.includeSymbols cfg = true ->
      exists c, c ∈ s /\ c ∈ CHAR_SETS.symbols).
Proof.
  intros (sh & -> & Hperm & _ & _ & Hall & Hlo & Hup & Hnu & Hsy).
  assert (Hall' : Forall (charOf (canonicalPool cfg)) sh) by by rewrite Hperm.
  assert (Hex : forall chars, Exists (charOf chars) gu ->
                  exists c, c ∈ join sh /\ c ∈ chars).
  { intros chars Hin. apply (join_exists _ _ _ Hall').
    rewrite Hperm. apply Exists_app. by left. }
  repeat split; intros Hb; apply Hex; auto.
Qed.

(** ** Properties of the generator *)

Section GeneratorProperties.

Variable random : nat -> unit_interval.

(** The returned string has as many units as the shuffled array has
    elements: the requested length, or the number of enabled classes when
    that is larger. *)
Lemma generate_length cfg st :
  validateSettings cfg = true ->
  (Settings.length cfg <= maxArrayLength)%Z ->
  exists s st',
    generateSecurePassword random cfg st = Return s st'
    /\ Z.of_nat (length s)
       = Z.max (Settings.length cfg) (Z.of_nat (enabledCount cfg)).
Proof.
  intros Hvalid Hmax.
  destruct (generate_returns random cfg st Hvalid Hmax) as (s & st' & Hgen).
  destruct (generate_return_facts random cfg st s st' Hgen)
    as (gu & fi & _ & _ & Hfrom & _).
  exists s, st'. split; [done|]. by eapply generatedFrom_length.
Qed.

(** When the requested length is at least the number of enabled classes,
    the returned string has exactly the requested length. *)
Lemma generate_length_exact cfg st :
  validateSettings cfg = true ->
  (Z.of_nat (enabledCount cfg) <= Settings.length cfg <= maxArrayLength)%Z ->
  exists s st',
    generateSecurePassword random cfg st = Return s st'
    /\ Z.of_nat (length s) = Settings.length cfg.
Proof.
  intros Hvalid Hlen.
  destruct (generate_length cfg st Hvalid ltac:(lia)) as (s & st' & Hgen & Hs).
  exists s, st'. split; [done|]. lia.
Qed.

(** C1, at the configuration with length 3 and all four classes enabled:
    the configuration is valid (a class is enabled and the length is at
    least 1), and whatever the random source and the state, the generator
    returns a string of 4 code units, not of the 3 requested. *)
Theorem generate_length_three_of_four st :
  validConfig (allClasses 3)
  /\ exists s st',
       generateSecurePassword random (allClasses 3) st = Return s st'
       /\ length s = 4%nat
       /\ Z.of_nat (length s) <> Settings.length (allClasses 3).
Proof.
  split; [split; [done | simpl; lia]|].
  destruct (generate_length (allClasses 3) st eq_refl ltac:(done))
    as (s & st' & Hgen & Hs).
  assert (H4 : Z.of_nat (length s) = 4%Z) by exact Hs.
  exists s, st'. split; [done|]. split; [lia|]. rewrite H4. done.
Qed.

(** C2: for a valid configuration whose length is at least the number of
    enabled classes, the string returned by the generator contains, for
    each enabled class, at least one character of that class; and a
    string is returned whenever the length is one an array can have (at
    most [2^32 - 1]; beyond, [Array.from] or [concat] throws a
    [RangeError] and no string is returned). *)
Theorem generate_includes_every_enabled_class cfg st :
  validConfig cfg ->
  (Z.of_nat (enabledCount cfg) <= Settings.length cfg)%Z ->
  ((Settings.length cfg <= maxArrayLength)%Z ->
   exists s st', generateSecurePassword random cfg st = Return s st')
  /\ forall s st',
       generateSecurePassword random cfg st = Return s st' ->
       (Settings.includeLowercase cfg = true ->
        exists c, c ∈ s /\ c ∈ CHAR_SETS.lowercase)
       /\ (Settings.includeUppercase cfg = true ->
           exists c, c ∈ s /\ c ∈ CHAR_SETS.uppercase)
       /\ (Settings.includeNumbers cfg = true ->
           exists c, c ∈ s /\ c ∈ CHAR_SETS.numbers)
       /\ (Settings.includeSymbols cfg = true ->
           exists c, c ∈ s /\ c ∈ CHAR_SETS.symbols).
Proof.
  intros [Hvalid _] _. split.
  - intros Hmax. by apply generate_returns.
  - intros s st' Hgen.
    destruct (generate_return_facts random cfg st s st' Hgen)
      as (gu & fi & _ & _ & Hfrom & _).
    by eapply generatedFrom_classes.
Qed.

(** C3: with no class enabled the generator throws the configuration
    error in the very state it was called in, so that no random value has
    been drawn.  With some class enabled it never throws that error: it
    returns a string when the length is one an array can have, and the
    only error it throws is the [RangeError] of a length beyond that. *)
Theorem generate_rejects_exactly_no_class cfg st :
  (validateSettings cfg = false ->
   generateSecurePassword random cfg st = Throw (Error noClassMessage) st)
  /\ (validateSettings cfg = true ->
      (forall e st',
         generateSecurePassword random cfg st = Throw e st' ->
         e = RangeError /\ (maxArrayLength < Settings.length cfg)%Z)
      /\ ((Settings.length cfg <= maxArrayLength)%Z ->
          exists s st', generateSecurePassword random cfg st = Return s st')).
Proof.
  split; intros Hv.
  - by apply generate_throws.
  - split.
    + intros e st' Hthrow.
      destruct (Z.le_gt_cases (Settings.length cfg) maxArrayLength) as [Hle|Hgt].
      * destruct (generate_returns random cfg st Hv Hle) as (s & st'' & Hgen).
        congruence.
      * destruct (generate_overflow random cfg st Hv Hgt) as (draws & Hover & _).
        rewrite Hover in Hthrow. by injection Hthrow as <- _.
    + intros Hmax. by apply generate_returns.
Qed.

(** C4, as the code behaves: when the requested length is below the number
    of enabled classes, the generator neither truncates nor rejects; it
    returns a string of one character per enabled class, longer than
    requested. *)
Theorem generate_short_length_overflows cfg st :
  validConfig cfg ->
  (Settings.length cfg < Z.of_nat (enabledCount cfg))%Z ->
  exists s st',
    generateSecurePassword random cfg st = Return s st'
    /\ length s = enabledCount cfg
    /\ (Settings.length cfg < Z.of_nat (length s))%Z.
Proof.
  intros [Hvalid _] Hshort.
  pose proof (enabledCount_le cfg) as Hcount.
  destruct (generate_length cfg st Hvalid ltac:(unfold maxArrayLength; lia))
    as (s & st' & Hgen & Hs).
  exists s, st'. split; [done|]. lia.
Qed.

End GeneratorProperties.

Lemma maxArrayLength_exact n :
  (Z.of_nat n <= maxArrayLength)%Z ->
  (Z.of_nat n <= 2 ^ 52)%Z /\ (Z.of_nat n <= 2 ^ 53)%Z.
Proof. unfold maxArrayLength. lia. Qed.

(** ** Properties of the shuffle *)

Section ShuffleProperties.

Variable random : nat -> unit_interval.

(** C5: the array returned by [shuffleArray] is a permutation of the
    array it was given (an array has at most [2^32 - 1] elements), and
    every string returned by the generator has exactly the code units of
    the guaranteed characters followed by the fill characters, as they
    were drawn before the shuffle; the generator returns a string
    whenever a class is enabled and the length is one an array can
    have. *)
Theorem shuffle_is_a_permutation :
  (forall st array a,
     heap st !! array = Some a ->
     (Z.of_nat (length a) <= maxArrayLength)%Z ->
     exists shuffled st' b,
       shuffleArray random array st = Return shuffled st'
       /\ heap st' !! shuffled = Some b
       /\ b ≡ₚ a)
  /\ (forall cfg st,
        validateSettings cfg = true ->
        ((Settings.length cfg <= maxArrayLength)%Z ->
         exists s st', generateSecurePassword random cfg st = Return s st')
        /\ forall s st',
             generateSecurePassword random cfg st = Return s st' ->
             exists guaranteedChars filled st1 st2,
               collectChars random cfg st
               = Return (canonicalPool cfg, guaranteedChars) st1
               /\ fillChars random (canonicalPool cfg)
                    (Settings.length cfg - Z.of_nat (length guaranteedChars)) st1
                  = Return filled st2
               /\ s ≡ₚ join (guaranteedChars ++ filled)).
Proof.
  split.
  - intros st array a Ha Hmax.
    destruct (maxArrayLength_exact _ Hmax) as [_ H53].
    rewrite (shuffleArray_run random _ _ _ Ha H53).
    eexists _, _, _. split; [done|]. cbn [heap]. split.
    + by rewrite lookup_app_r, Nat.sub_diag by lia.
    + apply fisherYates_perm.
  - intros cfg st Hvalid. split.
    + intros Hmax. by apply generate_returns.
    + intros s st' Hgen.
      destruct (generate_return_facts random cfg st s st' Hgen)
        as (gu & fi & Hcollect & Hfill & (sh & -> & Hperm & _) & _).
      exists gu, fi. eexists _, _.
      split; [exact Hcollect|]. split; [exact Hfill|]. by apply join_perm.
Qed.

(** C6: [shuffleArray] is the Fisher-Yates pass.  Its result is obtained
    by going through the indices from the last one down to 1 and exchanging
    position [i] with the position chosen for [i]; it makes one draw per
    index.  The position chosen for [i] is the floor of the double product
    of the draw and [i + 1]; it lies between 0 and [i] inclusive, and it is
    the integer part of the exact product or, when the product rounds up
    to it, the next integer.  A draw [r] with
    [j <= r * (i + 1) <= (j + 1) * (1 - 2^-53)] chooses [j]: the draws
    that choose [j] are those of the interval from [j / (i + 1)] to
    [(j + 1) / (i + 1)], up to the rounding at its upper end, so that the
    positions from 0 to [i] have equal shares of the unit interval up to
    the rounding.  Every position from 0 to [i], [i] included, is chosen
    by some draw. *)
Theorem shuffle_is_fisher_yates st array a :
  heap st !! array = Some a ->
  (Z.of_nat (length a) <= maxArrayLength)%Z ->
  exists shuffled st',
    shuffleArray random array st = Return shuffled st'
    /\ heap st' !! shuffled
       = Some (fisherYates (chosen random (calls st) (length a)) (length a - 1) a)
    /\ calls st' = (length a - 1 + calls st)%nat
    /\ (forall i, (1 <= i <= length a - 1)%nat ->
          chosen random (calls st) (length a) i
          = Z.to_nat (Math_floor
                        (times (random (calls st + (length a - 1 - i))) (i + 1)))
          /\ (0 <= chosen random (calls st) (length a) i <= i)%nat)
    /\ (forall (r : unit_interval) (i : nat),
          (Z.of_nat (i + 1) <= maxArrayLength)%Z ->
          (0 <= pick r (i + 1) <= Z.of_nat i)%Z
          /\ (Qfloor (ui_val r * inject_Z (Z.of_nat (i + 1))) <= pick r (i + 1)
              <= Qfloor (ui_val r * inject_Z (Z.of_nat (i + 1))) + 1)%Z)
    /\ (forall (r : unit_interval) (i j : nat),
          (j <= i)%nat ->
          (Z.of_nat (i + 1) <= maxArrayLength)%Z ->
          (inject_Z (Z.of_nat j) <= ui_val r * inject_Z (Z.of_nat (i + 1)))%Q ->
          (ui_val r * inject_Z (Z.of_nat (i + 1))
           <= inject_Z (Z.of_nat (j + 1)) * (1 - (1 # 2 ^ 53)))%Q ->
          pick r (i + 1) = Z.of_nat j)
    /\ (forall i j : nat,
          (j <= i)%nat ->
          (Z.of_nat (i + 1) <= maxArrayLength)%Z ->
          exists r : unit_interval, Z.to_nat (pick r (i + 1)) = j).
Proof.
  intros Ha Hmax.
  destruct (maxArrayLength_exact _ Hmax) as [_ H53].
  rewrite (shuffleArray_run random _ _ _ Ha H53).
  eexists _, _. split; [done|]. cbn [heap calls].
  split; [by rewrite lookup_app_r, Nat.sub_diag by lia|].
  split; [done|]. split; [|split; [|split]].
  - intros i Hi. split; [done|].
    pose proof (chosen_le random (calls st) (length a) i ltac:(lia)). lia.
  - intros r i Hi. destruct (maxArrayLength_exact _ Hi) as [_ Hi53].
    pose proof (pick_range r (i + 1) ltac:(lia) Hi53).
    split; [lia|]. by apply pick_near.
  - intros r i j Hj Hi Hlo Hhi. destruct (maxArrayLength_exact _ Hi) as [_ Hi53].
    apply pick_exact; [lia | done | done].
  - intros i j Hj Hi. destruct (maxArrayLength_exact _ Hi) as [Hi52 _].
    exists (drawFor j (i + 1)). rewrite pick_drawFor by (done || lia). lia.
Qed.

(** C10: [shuffleArray] leaves its argument alone.  The reference it
    returns is a new one, different from the argument and not allocated
    before the call; after the call the argument holds the same contents
    as before, and so does every array other than the new one.  Given a
    reference to no array it throws without touching the store. *)
Theorem shuffle_does_not_mutate_its_argument st array :
  match heap st !! array with
  | Some a =>
      exists shuffled st',
        shuffleArray random array st = Return shuffled st'
        /\ shuffled <> array
        /\ heap st !! shuffled = None
        /\ heap st' !! array = Some a
        /\ (forall l, l <> shuffled -> heap st' !! l = heap st !! l)
  | None => shuffleArray random array st = Throw TypeError st
  end.
Proof.
  destruct (heap st !! array) as [a|] eqn:Ha.
  - pose proof (lookup_lt_Some _ _ _ Ha) as Hl.
    destruct (shuffleArray_frame random _ _ _ Ha) as (a' & ->).
    eexists _, _. split; [done|]. cbn [heap].
    split; [lia|]. split; [by apply lookup_ge_None|].
    split; [by rewrite lookup_app_l|].
    intros l Hne. destruct (decide (l < length (heap st))%nat).
    + by rewrite lookup_app_l.
    + rewrite !lookup_ge_None_2; [done | lia | rewrite length_app; simpl; lia].
  - unfold shuffleArray, bind, load. by rewrite Ha.
Qed.

End ShuffleProperties.

(** ** The classes of the evaluator and the character sets *)

Lemma forallb_elem (P : N -> bool) (l : list N) (c : N) :
  forallb P l = true -> c ∈ l -> P c = true.
Proof.
  intros Hall Hc. rewrite forallb_forall in Hall. apply Hall.
  by apply list_elem_of_In.
Qed.

Lemma lowercase_lowerClass c : c ∈ CHAR_SETS.lowercase -> lowerClass c = true.
Proof. by apply forallb_elem. Qed.

Lemma uppercase_upperClass c : c ∈ CHAR_SETS.uppercase -> upperClass c = true.
Proof. by apply forallb_elem. Qed.

Lemma numbers_digitClass c : c ∈ CHAR_SETS.numbers -> digitClass c = true.
Proof. by apply forallb_elem. Qed.

Lemma symbols_otherClass c : c ∈ CHAR_SETS.symbols -> otherClass c = true.
Proof. by apply forallb_elem. Qed.

Lemma test_true (class : N -> bool) (s : list N) :
  test class s = true <-> exists c, c ∈ s /\ class c = true.
Proof.
  unfold test. rewrite existsb_exists.
  split; intros (c & Hc & Hcl); exists c; split; try done; by apply list_elem_of_In.
Qed.

Lemma elem_of_canonicalPool cfg c :
  c ∈ canonicalPool cfg <->
  (Settings.includeLowercase cfg = true /\ c ∈ CHAR_SETS.lowercase)
  \/ (Settings.includeUppercase cfg = true /\ c ∈ CHAR_SETS.uppercase)
  \/ (Settings.includeNumbers cfg = true /\ c ∈ CHAR_SETS.numbers)
  \/ (Settings.includeSymbols cfg = true /\ c ∈ CHAR_SETS.symbols).
Proof.
  unfold canonicalPool. rewrite !elem_of_app.
  destruct (Settings.includeLowercase cfg), (Settings.includeUppercase cfg),
    (Settings.includeNumbers cfg), (Settings.includeSymbols cfg);
    rewrite ?elem_of_nil; intuition discriminate.
Qed.

(** ** Classes and score of the evaluator *)

Lemma inRange_between lo hi c : inRange lo hi c = true <-> between lo hi c.
Proof.
  unfold inRange, between. by rewrite andb_true_iff, !N.leb_le.
Qed.

Lemma otherClass_isOther c : otherClass c = true <-> isOther c.
Proof.
  unfold otherClass, isOther, isLower, isUpper, isDigit.
  rewrite negb_true_iff, !orb_false_iff, <- !inRange_between.
  destruct (inRange "a" "z" c), (inRange "A" "Z" c), (inRange "0" "9" c);
    intuition congruence.
Qed.

Lemma test_contains (class : N -> bool) (P : N -> Prop) (s : list N) :
  (forall c, class c = true <-> P c) ->
  test class s = true <-> contains P s.
Proof.
  intros Hc. rewrite test_true. unfold contains.
  split; intros (c & Hin & H); exists c; split; try done; by apply Hc.
Qed.

Lemma score_bounds password :
  (0 <= score (evaluatePasswordStrength password) <= 6)%Z.
Proof.
  unfold evaluatePasswordStrength.
  destruct (12 <=? length password)%nat, (8 <=? length password)%nat,
    (test lowerClass password), (test upperClass password),
    (test digitClass password), (test otherClass password);
    cbn [score]; lia.
Qed.

(** The kind of the characters of each class. *)
Lemma class_kinds c :
  (c ∈ CHAR_SETS.lowercase ->
   lowerClass c = true /\ upperClass c = false
   /\ digitClass c = false /\ otherClass c = false)
  /\ (c ∈ CHAR_SETS.uppercase ->
      lowerClass c = false /\ upperClass c = true
      /\ digitClass c = false /\ otherClass c = false)
  /\ (c ∈ CHAR_SETS.numbers ->
      lowerClass c = false /\ upperClass c = false
      /\ digitClass c = true /\ otherClass c = false)
  /\ (c ∈ CHAR_SETS.symbols ->
      lowerClass c = false /\ upperClass c = false
      /\ digitClass c = false /\ otherClass c = true).
Proof.
  repeat split; intros.
  all: match goal with
       | Hc : ?x ∈ ?l |- ?f ?x = ?v =>
           apply (forallb_elem (fun y => Bool.eqb (f y) v) l x eq_refl) in Hc;
           by apply Bool.eqb_prop in Hc
       end.
Qed.

(** The evaluator finds a kind of character in a generated password
    exactly when the class of that kind is enabled. *)
Lemma test_generated cfg gu fi s :
  generatedFrom cfg gu fi s ->
  test lowerClass s = Settings.includeLowercase cfg
  /\ test upperClass s = Settings.includeUppercase cfg
  /\ test digitClass s = Settings.includeNumbers cfg
  /\ test otherClass s = Settings.includeSymbols cfg.
Proof.
  intros Hfrom.
  destruct (generatedFrom_classes cfg gu fi s Hfrom) as (Elo & Eup & Enu & Esy).
  assert (Hkind : forall (class : N -> bool) (b : bool),
            (b = true -> exists c, c ∈ s /\ class c = true) ->
            (forall c, c ∈ canonicalPool cfg -> class c = true -> b = true) ->
            test class s = b).
  { intros class b Hto Hback. apply eq_iff_eq_true. rewrite test_true. split.
    - intros (c & Hc & Hcl). eapply Hback; [|exact Hcl].
      by eapply generatedFrom_pool.
    - exact Hto. }
  repeat split; apply Hkind.
  - intros Hb. destruct (Elo Hb) as (c & ? & Hc). exists c.
    split; [done|]. by apply (class_kinds c).
  - intros c Hc Hcl. apply elem_of_canonicalPool in Hc.
    destruct Hc as [[? _]|[[_ Hc]|[[_ Hc]|[_ Hc]]]]; [done|..];
      apply (class_kinds c) in Hc; destruct Hc as (? & ? & ? & ?); congruence.
  - intros Hb. destruct (Eup Hb) as (c & ? & Hc). exists c.
    split; [done|]. by apply (class_kinds c).
  - intros c Hc Hcl. apply elem_of_canonicalPool in Hc.
    destruct Hc as [[_ Hc]|[[? _]|[[_ Hc]|[_ Hc]]]]; [|done|..];
      apply (class_kinds c) in Hc; destruct Hc as (? & ? & ? & ?); congruence.
  - intros Hb. destruct (Enu Hb) as (c & ? & Hc). exists c.
    split; [done|]. by apply (class_kinds c).
  - intros c Hc Hcl. apply elem_of_canonicalPool in Hc.
    destruct Hc as [[_ Hc]|[[_ Hc]|[[? _]|[_ Hc]]]]; [| |done|];
      apply (class_kinds c) in Hc; destruct Hc as (? & ? & ? & ?); congruence.
  - intros Hb. destruct (Esy Hb) as (c & ? & Hc). exists c.
    split; [done|]. by apply (class_kinds c).
  - intros c Hc Hcl. apply elem_of_canonicalPool in Hc.
    destruct Hc as [[_ Hc]|[[_ Hc]|[[_ Hc]|[? _]]]]; [| | |done];
      apply (class_kinds c) in Hc; destruct Hc as (? & ? & ? & ?); congruence.
Qed.

Section PoolAndStrength.

Variable random : nat -> unit_interval.


(** C9: with all four classes enabled and a length of at least 12, every
    password the generator returns is scored 6 by the evaluator, labelled
    with its highest label and given no feedback; no string scores more.
    The generator returns a password whenever the length is one an array
    can have. *)
Theorem generated_password_is_rated_highest cfg st :
  Settings.includeLowercase cfg = true ->
  Settings.includeUppercase cfg = true ->
  Settings.includeNumbers cfg = true ->
  Settings.includeSymbols cfg = true ->
  (12 <= Settings.length cfg)%Z ->
  ((Settings.length cfg <= maxArrayLength)%Z ->
   exists s st', generateSecurePassword random cfg st = Return s st')
  /\ forall s st',
       generateSecurePassword random cfg st = Return s st' ->
       evaluatePasswordStrength s = mkReport veryStrong 6 []
       /\ forall password,
            (score (evaluatePasswordStrength password)
             <= score (evaluatePasswordStrength s))%Z.
Proof.
  intros Hlo Hup Hnu Hsy Hlen.
  assert (Hvalid : validateSettings cfg = true).
  { unfold validateSettings. by rewrite Hlo, Hup. }
  split; [intros Hmax; by apply generate_returns|].
  intros s st' Hgen.
  destruct (generate_return_facts random cfg st s st' Hgen)
    as (gu & fi & _ & _ & Hfrom & _).
  destruct (test_generated cfg gu fi s Hfrom) as (Tlo & Tup & Tnu & Tsy).
  pose proof (generatedFrom_length cfg gu fi s Hfrom) as Hs.
  assert (H12 : (12 <=? length s)%nat = true) by (apply Nat.leb_le; lia).
  assert (Heval : evaluatePasswordStrength s = mkReport veryStrong 6 []).
  { unfold evaluatePasswordStrength.
    by rewrite H12, Tlo, Tup, Tnu, Tsy, Hlo, Hup, Hnu, Hsy. }
  split; [exact Heval|].
  intros password. rewrite Heval. apply score_bounds.
Qed.

End PoolAndStrength.

(** ** The evaluator on every string *)

(** C8, as the code has it: the score is the points for the length (2 from
    12 units on, 1 from 8 on, else 0) plus one point each for containing a
    lowercase letter, an uppercase letter, a digit, and a unit that is none
    of these; below 8 units the feedback is the one advice on length, and
    otherwise it is empty; the label is that of the score, in the
    application's language: 'Muy fuerte' from 6 on, 'Fuerte' from 4 on,
    'Media' from 2 on, and 'Debil' (with an acute accent on the e) below.
    The empty string is accepted: score 0, the lowest label, the advice. *)
Theorem evaluate_scores_and_labels password :
  (exists lo up di ot : bool,
     (lo = true <-> contains isLower password)
     /\ (up = true <-> contains isUpper password)
     /\ (di = true <-> contains isDigit password)
     /\ (ot = true <-> contains isOther password)
     /\ score (evaluatePasswordStrength password)
        = (lengthPoints (length password)
           + Z.b2z lo + Z.b2z up + Z.b2z di + Z.b2z ot)%Z
     /\ feedback (evaluatePasswordStrength password)
        = (if decide (length password < 8)%nat then [lengthAdvice] else [])
     /\ strength (evaluatePasswordStrength password)
        = labelOf (score (evaluatePasswordStrength password)))
  /\ evaluatePasswordStrength [] = mkReport weak 0 [lengthAdvice]
  /\ veryStrong = str "Muy fuerte" /\ strong = str "Fuerte"
  /\ medium = str "Media" /\ weak = str "D" ++ [233%N] ++ str "bil"
  /\ lengthAdvice = str "Usar al menos 8 caracteres".
Proof.
  split; [|by repeat split].
  exists (test lowerClass password), (test upperClass password),
    (test digitClass password), (test otherClass password).
  split; [apply test_contains; intros c; apply inRange_between|].
  split; [apply test_contains; intros c; apply inRange_between|].
  split; [apply test_contains; intros c; apply inRange_between|].
  split; [apply test_contains; intros c; apply otherClass_isOther|].
  unfold evaluatePasswordStrength, lengthPoints, labelOf.
  destruct (Nat.leb_spec 12 (length password));
    destruct (Nat.leb_spec 8 (length password));
    repeat case_decide; try lia;
    destruct (test lowerClass password), (test upperClass password),
      (test digitClass password), (test otherClass password);
    cbn [score feedback strength Z.b2z] in *;
    repeat case_decide; try lia; done.
Qed.

(** C8 as stated fails on the label: for the empty string the evaluator
    does not answer "weak". *)
Lemma evaluate_empty_label_is_not_weak :
  strength (evaluatePasswordStrength []) <> str "weak".
Proof. discriminate. Qed.

(** ** The model at concrete inputs *)

Example evaluate_all_kinds :
  evaluatePasswordStrength (str "Ab3!Ab3!Ab3!") = mkReport veryStrong 6 [].
Proof. reflexivity. Qed.

Example evaluate_abc :
  evaluatePasswordStrength (str "abc") = mkReport weak 1 [lengthAdvice].
Proof. reflexivity. Qed.

Example generate_run_sevenths :
  generateSecurePassword sevenths (allClasses 6) emptyState
  = Return (str "[ah1SL")
      (mkState 11
         [[VString (str "h"); VString (str "S"); VString (str "1");
           VString (str "["); VString (str "a"); VString (str "L")];
          [VString (str "["); VString (str "a"); VString (str "h");
           VString (str "1"); VString (str "S"); VString (str "L")]]).
Proof. vm_compute. reflexivity. Qed.

Example shuffle_run_sevenths :
  shuffleArray sevenths 0 fourLetters
  = Return 1
      (mkState 3
         [[VString (str "a"); VString (str "b");
           VString (str "c"); VString (str "d")];
          [VString (str "d"); VString (str "a");
           VString (str "c"); VString (str "b")]]).
Proof. vm_compute. reflexivity. Qed.

(** Two draws just below a boundary: the exact products are below 4 and
    below 9, the double products are 4 and 9. *)
Example pick_rounds_up :
  pick (binary53 5146971002709138) 7 = 4%Z
  /\ Qfloor (ui_val (binary53 5146971002709138) * inject_Z 7) = 3%Z
  /\ pick (binary53 8106479329266892) 10 = 9%Z
  /\ Qfloor (ui_val (binary53 8106479329266892) * inject_Z 10) = 8%Z
  /\ getRandomChar (fun _ => binary53 8106479329266892) CHAR_SETS.numbers
       emptyState
     = Return (str "9") (mkState 1 []).
Proof. vm_compute. repeat split. Qed.

(** A length that no array has: four draws, then the [RangeError] of
    [Array.from], and the message of the [catch] block. *)
Example generate_run_overflow :
  generateSecurePassword sevenths (allClasses (2 ^ 32 + 4)) emptyState
  = Throw RangeError (mkState 4 [])
  /\ shownErrors (handleGeneratePassword sevenths overflowPage)
     = [generateErrorMessage].
Proof. vm_compute. repeat split. Qed.

(** ** The theorems at concrete inputs *)

Lemma generate_includes_every_enabled_class_at_12 :
  validConfig (allClasses 12)
  /\ (Z.of_nat (enabledCount (allClasses 12)) <= Settings.length (allClasses 12))%Z
  /\ exists s st',
       generateSecurePassword sevenths (allClasses 12) emptyState = Return s st'
       /\ (exists c, c ∈ s /\ c ∈ CHAR_SETS.lowercase)
       /\ (exists c, c ∈ s /\ c ∈ CHAR_SETS.uppercase)
       /\ (exists c, c ∈ s /\ c ∈ CHAR_SETS.numbers)
       /\ (exists c, c ∈ s /\ c ∈ CHAR_SETS.symbols).
Proof.
  assert (Hv : validConfig (allClasses 12))
    by (split; [reflexivity | unfold allClasses, twoOfThree, enabledCount; simpl; lia]).
  assert (Hl : (Z.of_nat (enabledCount (allClasses 12))
                <= Settings.length (allClasses 12))%Z)
    by (unfold allClasses, twoOfThree, enabledCount; simpl; lia).
  split; [exact Hv|]. split; [exact Hl|].
  destruct (generate_includes_every_enabled_class sevenths (allClasses 12)
              emptyState Hv Hl) as [Hret Hall].
  destruct Hret as (s & st' & Hrun); [vm_compute; discriminate|].
  destruct (Hall s st' Hrun) as (Hlo & Hup & Hnu & Hsy).
  exists s, st'. split; [exact Hrun|].
  split; [exact (Hlo eq_refl)|]. split; [exact (Hup eq_refl)|].
  split; [exact (Hnu eq_refl) | exact (Hsy eq_refl)].
Defined.

Lemma generate_rejects_exactly_no_class_at_inputs :
  validateSettings noClass = false
  /\ generateSecurePassword sevenths noClass emptyState
     = Throw (Error noClassMessage) emptyState
  /\ validateSettings (allClasses 8) = true
  /\ (Settings.length (allClasses 8) <= maxArrayLength)%Z
  /\ exists s st',
       generateSecurePassword sevenths (allClasses 8) emptyState = Return s st'.
Proof.
  split; [reflexivity|]. split.
  - apply (proj1 (generate_rejects_exactly_no_class sevenths noClass emptyState)).
    reflexivity.
  - split; [reflexivity|].
    assert (Hmax : (Settings.length (allClasses 8) <= maxArrayLength)%Z)
      by (vm_compute; discriminate).
    split; [exact Hmax|].
    exact (proj2 (proj2 (generate_rejects_exactly_no_class sevenths (allClasses 8)
                           emptyState) eq_refl) Hmax).
Defined.

Lemma generate_short_length_overflows_at_two_of_three :
  validConfig twoOfThree
  /\ (Settings.length twoOfThree < Z.of_nat (enabledCount twoOfThree))%Z
  /\ exists s st',
       generateSecurePassword sevenths twoOfThree emptyState = Return s st'
       /\ length s = enabledCount twoOfThree
       /\ (Settings.length twoOfThree < Z.of_nat (length s))%Z.
Proof.
  assert (Hv : validConfig twoOfThree) by (split; [reflexivity | unfold allClasses, twoOfThree, enabledCount; simpl; lia]).
  assert (Hl : (Settings.length twoOfThree < Z.of_nat (enabledCount twoOfThree))%Z)
    by (unfold allClasses, twoOfThree, enabledCount; simpl; lia).
  split; [exact Hv|]. split; [exact Hl|].
  exact (generate_short_length_overflows sevenths twoOfThree emptyState Hv Hl).
Defined.

Lemma shuffle_is_a_permutation_at_inputs :
  (exists shuffled st' b,
     shuffleArray sevenths 0 fourLetters = Return shuffled st'
     /\ heap st' !! shuffled = Some b
     /\ b ≡ₚ [VString (str "a"); VString (str "b");
              VString (str "c"); VString (str "d")])
  /\ (exists s st' guaranteedChars filled st1 st2,
        generateSecurePassword sevenths (allClasses 6) emptyState = Return s st'
        /\ collectChars sevenths (allClasses 6) emptyState
           = Return (canonicalPool (allClasses 6), guaranteedChars) st1
        /\ fillChars sevenths (canonicalPool (allClasses 6))
             (Settings.length (allClasses 6) - Z.of_nat (length guaranteedChars)) st1
           = Return filled st2
        /\ s ≡ₚ join (guaranteedChars ++ filled)).
Proof.
  split.
  - apply (proj1 (shuffle_is_a_permutation sevenths) fourLetters 0%nat);
      [reflexivity | vm_compute; discriminate].
  - destruct (proj2 (shuffle_is_a_permutation sevenths) (allClasses 6) emptyState
                eq_refl) as [Hret Hall].
    destruct Hret as (s & st' & Hrun); [vm_compute; discriminate|].
    destruct (Hall s st' Hrun) as (gu & fi & st1 & st2 & Hc & Hf & Hp).
    exists s, st', gu, fi, st1, st2.
    split; [exact Hrun|]. split; [exact Hc|]. split; [exact Hf | exact Hp].
Defined.

Lemma shuffle_is_fisher_yates_at_four_letters :
  exists shuffled st',
    shuffleArray sevenths 0 fourLetters = Return shuffled st'
    /\ heap st' !! shuffled
       = Some (fisherYates (chosen sevenths 0 4) 3
                 [VString (str "a"); VString (str "b");
                  VString (str "c"); VString (str "d")])
    /\ calls st' = 3%nat.
Proof.
  assert (Hmax : (Z.of_nat 4 <= maxArrayLength)%Z) by (vm_compute; discriminate).
  destruct (shuffle_is_fisher_yates sevenths fourLetters 0%nat _ eq_refl Hmax)
    as (shuffled & st' & Hrun & Hheap & Hcalls & _).
  exists shuffled, st'. split; [exact Hrun|]. split; [exact Hheap | exact Hcalls].
Defined.


Lemma generated_password_is_rated_highest_at_12 :
  (12 <= Settings.length (allClasses 12))%Z
  /\ exists s st',
       generateSecurePassword sevenths (allClasses 12) emptyState = Return s st'
       /\ evaluatePasswordStrength s = mkReport veryStrong 6 []
       /\ forall password,
            (score (evaluatePasswordStrength password)
             <= score (evaluatePasswordStrength s))%Z.
Proof.
  assert (Hl : (12 <= Settings.length (allClasses 12))%Z) by (unfold allClasses, twoOfThree, enabledCount; simpl; lia).
  split; [exact Hl|].
  destruct (generated_password_is_rated_highest sevenths (allClasses 12) emptyState
              eq_refl eq_refl eq_refl eq_refl Hl) as [Hret Hall].
  destruct Hret as (s & st' & Hrun); [vm_compute; discriminate|].
  exists s, st'. split; [exact Hrun|]. exact (Hall s st' Hrun).
Defined.

(** ** More on the evaluator *)

(** The score as a sum: the points for the length and one point per kind
    of character found. *)
Lemma score_sum password :
  score (evaluatePasswordStrength password)
  = (lengthPoints (length password)
     + Z.b2z (test lowerClass password) + Z.b2z (test upperClass password)
     + Z.b2z (test digitClass password) + Z.b2z (test otherClass password))%Z.
Proof.
  unfold evaluatePasswordStrength, lengthPoints.
  destruct (Nat.leb_spec 12 (length password));
    destruct (Nat.leb_spec 8 (length password));
    repeat case_decide; try lia;
    destruct (test lowerClass password), (test upperClass password),
      (test digitClass password), (test otherClass password);
    reflexivity.
Qed.

Lemma lengthPoints_mono n m : (n <= m)%nat -> (lengthPoints n <= lengthPoints m)%Z.
Proof. intros Hnm. unfold lengthPoints. repeat case_decide; lia. Qed.

Lemma test_app class (s t : list N) : test class (s ++ t) = test class s || test class t.
Proof. apply existsb_app. Qed.

Lemma test_perm class (s t : list N) : s ≡ₚ t -> test class s = test class t.
Proof.
  intros Hst. apply eq_iff_eq_true. rewrite !test_true.
  split; intros (c & Hin & Hc); exists c; split; try done.
  - by rewrite <- Hst.
  - by rewrite Hst.
Qed.

(** Every code unit is of one of the four kinds. *)
Lemma kind_total c :
  lowerClass c || upperClass c || digitClass c || otherClass c = true.
Proof.
  unfold lowerClass, upperClass, digitClass, otherClass.
  destruct (inRange "a" "z" c), (inRange "A" "Z" c), (inRange "0" "9" c); done.
Qed.

(** X1: the report depends on the characters only, not on their order:
    two strings that are permutations of each other get the same report. *)
Theorem evaluate_ignores_order (s t : list N) :
  s ≡ₚ t -> evaluatePasswordStrength s = evaluatePasswordStrength t.
Proof.
  intros Hst. unfold evaluatePasswordStrength.
  rewrite (Permutation_length Hst).
  by rewrite !(test_perm _ _ _ Hst).
Qed.

(** X2: appending characters never lowers the score. *)
Theorem evaluate_score_grows_with_suffix (s t : list N) :
  (score (evaluatePasswordStrength s)
   <= score (evaluatePasswordStrength (s ++ t)))%Z.
Proof.
  rewrite !score_sum, !test_app, length_app.
  pose proof (lengthPoints_mono (length s) (length s + length t) ltac:(lia)).
  destruct (test lowerClass s), (test upperClass s), (test digitClass s),
    (test otherClass s), (test lowerClass t), (test upperClass t),
    (test digitClass t), (test otherClass t); cbn [orb Z.b2z]; lia.
Qed.

(** X3: only the empty string scores 0; every other string scores at
    least 1, since each of its characters is of one of the four kinds. *)
Theorem evaluate_score_zero_iff_empty (password : list N) :
  score (evaluatePasswordStrength password) = 0%Z <-> password = [].
Proof.
  split; [|by intros ->].
  destruct password as [|c rest]; [done|]. intros Hz.
  rewrite score_sum in Hz. exfalso.
  assert (Hl : (0 <= lengthPoints (length (c :: rest)))%Z)
    by (unfold lengthPoints; repeat case_decide; lia).
  pose proof (kind_total c) as Hk.
  unfold test in Hz. cbn [existsb] in Hz.
  destruct (lowerClass c), (upperClass c), (digitClass c), (otherClass c);
    try discriminate Hk;
    destruct (existsb lowerClass rest), (existsb upperClass rest),
      (existsb digitClass rest), (existsb otherClass rest);
    cbn [orb Z.b2z] in Hz; lia.
Qed.

(** X4: the highest label is given exactly to the strings of at least 12
    units that contain a lowercase letter, an uppercase letter, a digit
    and a unit that is none of these. *)
Theorem evaluate_highest_label_iff (password : list N) :
  strength (evaluatePasswordStrength password) = veryStrong
  <-> (12 <= length password)%nat
      /\ contains isLower password /\ contains isUpper password
      /\ contains isDigit password /\ contains isOther password.
Proof.
  rewrite <- (test_contains lowerClass isLower) by (intros; apply inRange_between).
  rewrite <- (test_contains upperClass isUpper) by (intros; apply inRange_between).
  rewrite <- (test_contains digitClass isDigit) by (intros; apply inRange_between).
  rewrite <- (test_contains otherClass isOther) by (intros; apply otherClass_isOther).
  unfold evaluatePasswordStrength.
  destruct (Nat.leb_spec 12 (length password));
    destruct (Nat.leb_spec 8 (length password)); try lia;
    destruct (test lowerClass password), (test upperClass password),
      (test digitClass password), (test otherClass password);
    cbn [strength]; split; try discriminate; try done;
    try (intros (? & ? & ? & ? & ?); (lia || discriminate)).
Qed.

(** ** More on the shuffle *)

Section Reach.

Context {A : Type}.
Implicit Types l b : list A.

(** Only the choices at the indices 1 to [i] matter. *)
Lemma fisherYates_ext choose choose' i l :
  (forall k, (1 <= k <= i)%nat -> choose k = choose' k) ->
  fisherYates choose i l = fisherYates choose' i l.
Proof.
  revert l. induction i as [|i IH]; intros l Hext; simpl; [done|].
  rewrite (Hext (S i)) by lia. apply IH. intros k Hk. apply Hext. lia.
Qed.

(** Two permutations of each other that agree from position 1 on are
    equal. *)
Lemma perm_agree_tail l b :
  l ≡ₚ b -> (forall k, (0 < k)%nat -> l !! k = b !! k) -> l = b.
Proof.
  intros Hperm Hagree. destruct l as [|x t], b as [|y t'].
  - done.
  - by apply Permutation_nil_l in Hperm.
  - by apply Permutation_nil_r in Hperm.
  - assert (t = t') as <-.
    { apply list_eq. intros k. apply (Hagree (S k)). lia. }
    f_equal. apply Permutation_length_1.
    apply (Permutation_app_inv_r t [x] [y]). exact Hperm.
Qed.

(** The prefixes of two permutations of each other that agree from
    position [n] on are permutations of each other. *)
Lemma perm_agree_prefix l b n :
  l ≡ₚ b -> (forall k, (n <= k)%nat -> l !! k = b !! k) ->
  take n l ≡ₚ take n b.
Proof.
  intros Hperm Hagree.
  assert (Hdrop : drop n l = drop n b).
  { apply list_eq. intros k. rewrite !lookup_drop. apply Hagree. lia. }
  apply (Permutation_app_inv_r (drop n l)).
  rewrite take_drop, Hdrop, take_drop. exact Hperm.
Qed.

(** Every permutation of a list is the result of a Fisher-Yates pass with
    suitable choices, each within its range. *)
Lemma fisherYates_reaches i :
  forall l b,
    l ≡ₚ b ->
    (forall k, (i < k)%nat -> l !! k = b !! k) ->
    exists choose,
      (forall k, (choose k <= k)%nat) /\ fisherYates choose i l = b.
Proof.
  induction i as [|i IH]; intros l b Hperm Hagree.
  - exists (fun _ => 0%nat). split; [intros; lia|]. simpl.
    by apply perm_agree_tail.
  - destruct (l !! S i) as [x|] eqn:Hx.
    + pose proof (lookup_lt_Some _ _ _ Hx) as Hlen.
      destruct (lookup_lt_is_Some_2 b (S i)) as [y Hy].
      { by rewrite <- (Permutation_length Hperm). }
      assert (Hin : y ∈ take (S (S i)) l).
      { rewrite (perm_agree_prefix l b (S (S i)) Hperm)
          by (intros k Hk; apply Hagree; lia).
        apply list_elem_of_lookup. exists (S i).
        rewrite lookup_take_lt by lia. exact Hy. }
      apply list_elem_of_lookup in Hin as [j Hj].
      assert (Hjlt : (j < S (S i))%nat).
      { apply lookup_lt_Some in Hj. rewrite length_take in Hj. lia. }
      rewrite lookup_take_lt in Hj by lia.
      destruct (IH (swap l (S i) j) b) as (choose & Hle & Hfy).
      * by rewrite swap_perm.
      * intros k Hk. unfold swap. rewrite Hx, Hj.
        destruct (decide (k = S i)) as [->|Hne].
        -- rewrite Hy. destruct (decide (j = S i)) as [->|Hji].
           ++ rewrite list_lookup_insert_eq by (rewrite length_insert; lia).
              congruence.
           ++ rewrite list_lookup_insert_ne by done.
              by rewrite list_lookup_insert_eq by lia.
        -- rewrite !list_lookup_insert_ne by lia. apply Hagree. lia.
      * exists (fun k => if decide (k = S i) then j else choose k). split.
        -- intros k. case_decide; [lia | apply Hle].
        -- cbn [fisherYates]. rewrite decide_True by done.
           rewrite <- Hfy. apply fisherYates_ext.
           intros k Hk. by rewrite decide_False by lia.
    + destruct (IH l b Hperm) as (choose & Hle & Hfy).
      * intros k Hk. destruct (decide (k = S i)) as [->|Hne]; [|apply Hagree; lia].
        rewrite Hx. symmetry. apply lookup_ge_None.
        rewrite <- (Permutation_length Hperm). by apply lookup_ge_None.
      * exists choose. split; [done|]. cbn [fisherYates].
        unfold swap. by rewrite Hx.
Qed.

End Reach.

Lemma chosen_sourceFor choose k n i :
  (i <= n - 1)%nat -> (choose i <= i)%nat -> (Z.of_nat (i + 1) <= 2 ^ 52)%Z ->
  chosen (sourceFor choose k n) k n i = choose i.
Proof.
  intros Hi Hc H52. unfold chosen, sourceFor.
  replace (n - 1 - (k + (n - 1 - i) - k))%nat with i by lia.
  rewrite pick_drawFor by (done || lia). lia.
Qed.

(** X5: an array of at most one element is copied as it is, and no
    random value is drawn for it. *)
Theorem shuffle_of_short_array random st array (a : list value) :
  heap st !! array = Some a ->
  (length a <= 1)%nat ->
  shuffleArray random array st
  = Return (length (heap st)) (mkState (calls st) (heap st ++ [a])).
Proof.
  intros Ha Hlen.
  rewrite (shuffleArray_run random _ _ _ Ha) by lia.
  by replace (length a - 1)%nat with 0%nat by lia.
Qed.

(** X6: every ordering can come out of the shuffle: for each permutation
    [b] of the input array (of at most [2^32 - 1] elements, as every
    array) there is a sequence of doubles of the unit interval with which,
    the products being rounded as the machine rounds them, [shuffleArray]
    returns a new array holding [b]. *)
Theorem shuffle_reaches_every_permutation st array (a b : list value) :
  heap st !! array = Some a ->
  (Z.of_nat (length a) <= maxArrayLength)%Z ->
  a ≡ₚ b ->
  exists random shuffled st',
    shuffleArray random array st = Return shuffled st'
    /\ heap st' !! shuffled = Some b.
Proof.
  intros Ha Hmax Hperm.
  destruct (maxArrayLength_exact _ Hmax) as [H52 H53].
  destruct (fisherYates_reaches (length a - 1) a b Hperm) as (choose & Hle & Hfy).
  { intros k Hk. rewrite !lookup_ge_None_2; [done | | lia].
    rewrite <- (Permutation_length Hperm). lia. }
  exists (sourceFor choose (calls st) (length a)).
  rewrite (shuffleArray_run _ _ _ _ Ha H53).
  eexists _, _. split; [done|]. cbn [heap].
  rewrite lookup_app_r, Nat.sub_diag by lia. cbn [lookup list_lookup].
  f_equal. rewrite <- Hfy. apply fisherYates_ext.
  intros k Hk. apply chosen_sourceFor; [lia | apply Hle | lia].
Qed.

(** ** More on the generator *)

Section GeneratorExtras.

Variable random : nat -> unit_interval.

(** X7: with some class enabled, a run of the generator that returns [n]
    characters has made exactly [2n - 1] calls of [Math.random()]: one per
    guaranteed or fill character and [n - 1] for the shuffle.  When the
    length is more than an array can have, the run ends in a [RangeError]
    without having shuffled: after the guaranteed characters alone when
    the fill by itself is too long for [Array.from], and else after the
    fill, in [concat]. *)
Theorem generate_draws cfg st :
  validateSettings cfg = true ->
  (forall s st',
     generateSecurePassword random cfg st = Return s st' ->
     calls st' = (2 * length s - 1 + calls st)%nat)
  /\ ((maxArrayLength < Settings.length cfg)%Z ->
      exists st',
        generateSecurePassword random cfg st = Throw RangeError st'
        /\ calls st'
           = ((if decide (maxArrayLength
                          < Settings.length cfg - Z.of_nat (enabledCount cfg))%Z
               then enabledCount cfg
               else (enabledCount cfg
                     + Z.to_nat (Settings.length cfg
                                 - Z.of_nat (enabledCount cfg)))%nat)
              + calls st)%nat).
Proof.
  intros Hvalid. split.
  - intros s st' Hgen.
    by destruct (generate_return_facts random cfg st s st' Hgen)
      as (gu & fi & _ & _ & _ & Hcalls).
  - intros Hover.
    destruct (generate_overflow random cfg st Hvalid Hover) as (draws & -> & ->).
    eexists. split; [done|]. done.
Qed.

(** X8: the score of a generated password is fixed by the configuration:
    the points for its length plus one point per enabled class; its
    feedback is empty exactly when it has at least 8 characters.  A
    password is returned whenever a class is enabled and the length is one
    an array can have. *)
Theorem generated_password_score cfg st :
  validateSettings cfg = true ->
  ((Settings.length cfg <= maxArrayLength)%Z ->
   exists s st', generateSecurePassword random cfg st = Return s st')
  /\ forall s st',
       generateSecurePassword random cfg st = Return s st' ->
       Z.of_nat (length s)
       = Z.max (Settings.length cfg) (Z.of_nat (enabledCount cfg))
       /\ score (evaluatePasswordStrength s)
          = (lengthPoints (length s) + Z.of_nat (enabledCount cfg))%Z
       /\ (feedback (evaluatePasswordStrength s) = [] <-> (8 <= length s)%nat).
Proof.
  intros Hvalid. split; [intros Hmax; by apply generate_returns|].
  intros s st' Hgen.
  destruct (generate_return_facts random cfg st s st' Hgen)
    as (gu & fi & _ & _ & Hfrom & _).
  destruct (test_generated cfg gu fi s Hfrom) as (Tlo & Tup & Tnu & Tsy).
  split; [by eapply generatedFrom_length|]. split.
  - rewrite score_sum, Tlo, Tup, Tnu, Tsy. unfold enabledCount.
    destruct (Settings.includeLowercase cfg), (Settings.includeUppercase cfg),
      (Settings.includeNumbers cfg), (Settings.includeSymbols cfg);
      cbn [Z.b2z]; lia.
  - unfold evaluatePasswordStrength.
    destruct (Nat.leb_spec 12 (length s));
      destruct (Nat.leb_spec 8 (length s));
      cbn [feedback]; split; try done; try lia.
Qed.

(** X9: [getRandomChar] makes one draw.  On the empty string it returns
    the empty string.  On a non-empty string (a string has fewer than
    [2^53] characters) it returns the one-character string at the index
    that is the floor of the double product of the draw and the length,
    which is always inside the string.  Every character of a string of at
    most [2^52] characters is returned for some double drawn. *)
Theorem getRandomChar_cases chars st :
  (chars = [] -> getRandomChar random chars st = Return [] (drawn 1 st))
  /\ (chars <> [] ->
      (Z.of_nat (length chars) <= 2 ^ 53)%Z ->
      exists c,
        getRandomChar random chars st = Return [c] (drawn 1 st)
        /\ chars !! Z.to_nat (Math_floor (times (random (calls st)) (length chars)))
           = Some c)
  /\ (forall k c,
        chars !! k = Some c ->
        (Z.of_nat (length chars) <= 2 ^ 52)%Z ->
        exists random',
          getRandomChar random' chars st = Return [c] (drawn 1 st)).
Proof.
  split; [|split].
  - intros ->. unfold getRandomChar, bind. rewrite randomIndex_run.
    unfold ret, charAt. by destruct (pick _ _ <? 0)%Z.
  - intros Hne Hshort.
    assert (Hlen : (0 < length chars)%nat) by (destruct chars; simpl; [done | lia]).
    pose proof (pick_range (random (calls st)) _ Hlen Hshort) as [H0 H1].
    fold (pick (random (calls st)) (length chars)).
    destruct (lookup_lt_is_Some_2 chars
                (Z.to_nat (pick (random (calls st)) (length chars)))) as [c Hc];
      [lia|].
    exists c. split; [|done].
    unfold getRandomChar, bind. rewrite randomIndex_run. unfold ret, charAt.
    destruct (Z.ltb_spec (pick (random (calls st)) (length chars)) 0); [lia|].
    by rewrite Hc.
  - intros k c Hk H52. pose proof (lookup_lt_Some _ _ _ Hk) as Hlt.
    exists (fun _ => drawFor k (length chars)).
    unfold getRandomChar, bind. rewrite randomIndex_run. unfold ret.
    rewrite pick_drawFor by done. unfold charAt.
    destruct (Z.ltb_spec (Z.of_nat k) 0); [lia|].
    by rewrite Nat2Z.id, Hk.
Qed.

End GeneratorExtras.

(** ** The event handlers *)

Lemma validateSettings_settingsOf p :
  validateSettings (settingsOf p) = anyChecked (boxes p).
Proof.
  unfold validateSettings, settingsOf, anyChecked. simpl.
  by destruct (uppercaseChecked (boxes p)), (lowercaseChecked (boxes p)),
    (numbersChecked (boxes p)), (symbolsChecked (boxes p)).
Qed.

Lemma enabledCount_settingsOf p :
  enabledCount (settingsOf p) = checkedCount (boxes p).
Proof. reflexivity. Qed.

Section HandlerProperties.

Variable random : nat -> unit_interval.

(** With a box checked and a slider value that an array can have,
    [handleGeneratePassword] ends in the [try] block: the page after it,
    written out. *)
Lemma handleGeneratePassword_run p :
  anyChecked (boxes p) = true ->
  (sliderValue p <= maxArrayLength)%Z ->
  exists s st',
    generateSecurePassword random (settingsOf p) (runtime p) = Return s st'
    /\ handleGeneratePassword random p
       = mkPage (sliderValue p) (boxes p) s (lengthValue p) (shownErrors p)
           (settingsOf p) st'
    /\ Z.of_nat (length s)
       = Z.max (sliderValue p) (Z.of_nat (checkedCount (boxes p)))
    /\ calls st' = (2 * length s - 1 + calls (runtime p))%nat
    /\ (forall c, c ∈ s -> c ∈ canonicalPool (settingsOf p)).
Proof.
  intros Hany Hmax.
  assert (Hvalid : validateSettings (settingsOf p) = true)
    by by rewrite validateSettings_settingsOf.
  destruct (generate_returns random (settingsOf p) (runtime p) Hvalid Hmax)
    as (s & st' & Hgen).
  destruct (generate_return_facts random _ _ _ _ Hgen)
    as (gu & fi & _ & _ & Hfrom & Hcalls).
  exists s, st'. split; [exact Hgen|]. split; [|split; [|split]].
  - unfold handleGeneratePassword.
    change (passwordSettings (updatePasswordSettings p)) with (settingsOf p).
    rewrite Hvalid. cbn [negb].
    change (runtime (updatePasswordSettings p)) with (runtime p).
    by rewrite Hgen.
  - exact (generatedFrom_length _ _ _ _ Hfrom).
  - exact Hcalls.
  - intros c Hc. by eapply generatedFrom_pool.
Qed.

(** With a box checked and a slider value beyond that, the generator
    throws and [handleGeneratePassword] ends in the [catch] block. *)
Lemma handleGeneratePassword_overflow p :
  anyChecked (boxes p) = true ->
  (maxArrayLength < sliderValue p)%Z ->
  exists st',
    handleGeneratePassword random p
    = showError generateErrorMessage
        (mkPage (sliderValue p) (boxes p) (passwordOutput p) (lengthValue p)
           (shownErrors p) (settingsOf p) st')
    /\ heap st' = heap (runtime p).
Proof.
  intros Hany Hover.
  assert (Hvalid : validateSettings (settingsOf p) = true)
    by by rewrite validateSettings_settingsOf.
  destruct (generate_overflow random (settingsOf p) (runtime p) Hvalid Hover)
    as (draws & Hthrow & _).
  eexists. split.
  - unfold handleGeneratePassword.
    change (passwordSettings (updatePasswordSettings p)) with (settingsOf p).
    rewrite Hvalid. cbn [negb].
    change (runtime (updatePasswordSettings p)) with (runtime p).
    rewrite Hthrow. reflexivity.
  - reflexivity.
Qed.

(** Whatever happens, [handleGeneratePassword] leaves the controls and the
    length display alone and stores the settings read from the controls. *)
Lemma handleGeneratePassword_controls p :
  passwordSettings (handleGeneratePassword random p) = settingsOf p
  /\ sliderValue (handleGeneratePassword random p) = sliderValue p
  /\ boxes (handleGeneratePassword random p) = boxes p
  /\ lengthValue (handleGeneratePassword random p) = lengthValue p.
Proof.
  unfold handleGeneratePassword.
  change (passwordSettings (updatePasswordSettings p)) with (settingsOf p).
  destruct (negb (validateSettings (settingsOf p))); [done|].
  by destruct (generateSecurePassword random (settingsOf p)
                 (runtime (updatePasswordSettings p))).
Qed.

(** X10: [handleGeneratePassword] reads the controls into
    [passwordSettings] and leaves the controls alone.  With no box
    checked it shows the message asking for a character type, keeps the
    password shown and draws no random value.  With a box checked and a
    slider value that an array can have (at most [2^32 - 1]) it shows no
    message and replaces the password by a new one that has the length of
    the slider, or one character per checked box when that is more.  With
    a box checked and a slider value beyond that, the generator throws,
    the [catch] block shows the message that generating failed, and the
    password shown stays. *)
Theorem handleGeneratePassword_outcome p :
  let p' := handleGeneratePassword random p in
  passwordSettings p' = settingsOf p
  /\ sliderValue p' = sliderValue p /\ boxes p' = boxes p
  /\ lengthValue p' = lengthValue p
  /\ (anyChecked (boxes p) = false ->
      shownErrors p' = shownErrors p ++ [noClassMessage]
      /\ passwordOutput p' = passwordOutput p
      /\ runtime p' = runtime p)
  /\ (anyChecked (boxes p) = true ->
      (sliderValue p <= maxArrayLength)%Z ->
      shownErrors p' = shownErrors p
      /\ Z.of_nat (length (passwordOutput p'))
         = Z.max (sliderValue p) (Z.of_nat (checkedCount (boxes p)))
      /\ (forall c, c ∈ passwordOutput p' -> c ∈ canonicalPool (settingsOf p)))
  /\ (anyChecked (boxes p) = true ->
      (maxArrayLength < sliderValue p)%Z ->
      shownErrors p' = shownErrors p ++ [generateErrorMessage]
      /\ passwordOutput p' = passwordOutput p
      /\ heap (runtime p') = heap (runtime p)).
Proof.
  cbn zeta.
  destruct (handleGeneratePassword_controls p) as (Hs & Hv & Hb & Hl).
  split; [done|]. split; [done|]. split; [done|]. split; [done|].
  split; [|split].
  - intros Hany. unfold handleGeneratePassword.
    change (passwordSettings (updatePasswordSettings p)) with (settingsOf p).
    rewrite validateSettings_settingsOf, Hany. by repeat split.
  - intros Hany Hmax.
    destruct (handleGeneratePassword_run p Hany Hmax)
      as (s & st' & _ & -> & Hlen & _ & Hin).
    cbn. by repeat split.
  - intros Hany Hover.
    destruct (handleGeneratePassword_overflow p Hany Hover) as (st' & -> & Hheap).
    cbn. by repeat split.
Qed.

(** X11: after [handleCheckboxChange], whatever the page and the box the
    event comes from, some box is checked; when the handler finds all
    boxes unchecked it checks the box of the event again, shows the
    message asking to keep one option, and neither generates a password
    nor draws a random value. *)
Theorem handleCheckboxChange_keeps_a_box_checked target p :
  let p' := handleCheckboxChange random target p in
  anyChecked (boxes p') = true
  /\ (anyChecked (boxes p) = false ->
      boxes p' = setChecked target true (boxes p)
      /\ shownErrors p' = shownErrors p ++ [keepOneMessage]
      /\ passwordOutput p' = passwordOutput p
      /\ runtime p' = runtime p).
Proof.
  cbn zeta. unfold handleCheckboxChange.
  change (boxes (updatePasswordSettings p)) with (boxes p).
  destruct (anyChecked (boxes p)) eqn:Hany; cbn [negb].
  - split; [|done].
    change (passwordOutput (updatePasswordSettings p)) with (passwordOutput p).
    destruct (truthy (passwordOutput p)); [|exact Hany].
    destruct (handleGeneratePassword_controls (updatePasswordSettings p))
      as (_ & _ & -> & _). exact Hany.
  - split; [|by intros _].
    cbn. unfold anyChecked. destruct target; cbn;
      by rewrite ?orb_true_r.
Qed.

(** X12: after [handleCheckboxChange] has checked the box again,
    [passwordSettings] still says that no class is enabled, so that the
    generator called as it is throws; [handleGeneratePassword] reads
    the boxes first and, for a slider value that an array can have,
    produces a password without any message. *)
Theorem settings_are_stale_after_kept_box target p :
  anyChecked (boxes p) = false ->
  let p' := handleCheckboxChange random target p in
  validateSettings (passwordSettings p') = false
  /\ generateSecurePassword random (passwordSettings p') (runtime p')
     = Throw (Error noClassMessage) (runtime p')
  /\ ((sliderValue p <= maxArrayLength)%Z ->
      shownErrors (handleGeneratePassword random p') = shownErrors p'
      /\ Z.of_nat (length (passwordOutput (handleGeneratePassword random p')))
         = Z.max (sliderValue p) 1).
Proof.
  intros Hany. cbn zeta.
  assert (Hp' : handleCheckboxChange random target p
                = showError keepOneMessage
                    (mkPage (sliderValue p) (setChecked target true (boxes p))
                       (passwordOutput p) (lengthValue p) (shownErrors p)
                       (settingsOf p) (runtime p))).
  { unfold handleCheckboxChange.
    change (boxes (updatePasswordSettings p)) with (boxes p).
    by rewrite Hany. }
  rewrite Hp'. set (q := showError keepOneMessage _).
  assert (Hstale : validateSettings (passwordSettings q) = false).
  { cbn. by rewrite validateSettings_settingsOf. }
  split; [exact Hstale|]. split.
  - by apply generate_throws.
  - intros Hmax.
    assert (Hq : anyChecked (boxes q) = true).
    { cbn. unfold anyChecked. destruct target; cbn; by rewrite ?orb_true_r. }
    destruct (handleGeneratePassword_run q Hq Hmax) as (s & st' & _ & -> & Hlen & _).
    cbn [shownErrors passwordOutput]. split; [done|].
    rewrite Hlen. cbn [q showError sliderValue boxes].
    f_equal. unfold anyChecked in Hany. cbn in Hany.
    apply orb_false_elim in Hany as [Hu Hany].
    apply orb_false_elim in Hany as [Hl Hany].
    apply orb_false_elim in Hany as [Hn Hany].
    apply orb_false_elim in Hany as [Hs _].
    unfold checkedCount. destruct target; cbn; by rewrite ?Hu, ?Hl, ?Hn, ?Hs.
Qed.

End HandlerProperties.

Section SessionProperties.

Variable random : nat -> unit_interval.


Lemma agrees_output_truthy p : agrees p -> truthy (passwordOutput p) = true.
Proof.
  intros (Hany & Hlen & _).
  destruct (passwordOutput p); [|done]. exfalso.
  unfold anyChecked, checkedCount in *. cbn in *.
  destruct (uppercaseChecked (boxes p)), (lowercaseChecked (boxes p)),
    (numbersChecked (boxes p)), (symbolsChecked (boxes p));
    try discriminate Hany; lia.
Qed.

Lemma handleGeneratePassword_agrees p :
  anyChecked (boxes p) = true ->
  (sliderValue p <= maxArrayLength)%Z ->
  agrees (handleGeneratePassword random p)
  /\ sliderValue (handleGeneratePassword random p) = sliderValue p.
Proof.
  intros Hany Hmax.
  destruct (handleGeneratePassword_run random p Hany Hmax)
    as (s & st' & _ & -> & Hlen & _ & Hin).
  by repeat split.
Qed.

(** One action keeps the agreement, and a slider value that an array can
    have. *)
Lemma dispatch_agrees p action :
  sliderWithin action ->
  agrees p /\ (sliderValue p <= maxArrayLength)%Z ->
  agrees (dispatch random p action)
  /\ (sliderValue (dispatch random p action) <= maxArrayLength)%Z.
Proof.
  intros Hin [Hp Hmax]. pose proof Hp as (Hany & Hlen & Hpool).
  destruct action as [|newValue|c|]; cbn [dispatch sliderWithin] in *.
  - destruct (handleGeneratePassword_agrees p Hany Hmax) as [Ha ->]. done.
  - unfold handleLengthChange. cbn [passwordOutput].
    rewrite (agrees_output_truthy p Hp).
    match goal with |- context [handleGeneratePassword _ ?q] =>
      destruct (handleGeneratePassword_agrees q Hany Hin) as [Ha ->] end.
    done.
  - unfold handleCheckboxChange.
    set (q := mkPage _ _ _ _ _ _ _).
    change (boxes (updatePasswordSettings q)) with (boxes q).
    change (passwordOutput (updatePasswordSettings q)) with (passwordOutput p).
    destruct (anyChecked (boxes q)) eqn:Hq; cbn [negb].
    + rewrite (agrees_output_truthy p Hp).
      destruct (handleGeneratePassword_agrees (updatePasswordSettings q) Hq Hmax)
        as [Ha ->]. done.
    + assert (Hback : setChecked c true (boxes q) = boxes p).
      { subst q. cbn [boxes] in *. unfold anyChecked in *.
        destruct (boxes p) as [[] [] [] []], c; cbn in *; congruence. }
      split; [|exact Hmax].
      unfold agrees, settingsOf.
      cbn [showError boxes sliderValue passwordOutput].
      subst q. cbn [boxes sliderValue passwordOutput updatePasswordSettings] in *.
      rewrite Hback. exact Hp.
  - destruct (createWaterDrops random (runtime p)); by repeat split.
Qed.

(** X14: if some box is checked when the page loads, and the slider never
    holds a value beyond what an array can have (at most [2^32 - 1]), then
    after loading and after every sequence of clicks on the button, moves
    of the slider, toggles of the boxes and firings of the drops timer, the
    password shown agrees with the controls: some box is checked, the
    password has the length of the slider (or one character per checked
    box when that is more), and its characters come from the classes of
    the checked boxes. *)
Theorem session_password_agrees_with_controls actions p :
  anyChecked (boxes p) = true ->
  (sliderValue p <= maxArrayLength)%Z ->
  Forall sliderWithin actions ->
  agrees (session random actions p).
Proof.
  intros Hany Hmax Hactions. unfold session.
  pose proof (handleGeneratePassword_agrees p Hany Hmax) as Hinit.
  rewrite <- (proj2 Hinit) in Hmax.
  assert (Hinv : agrees (initializeApp random p)
                 /\ (sliderValue (initializeApp random p) <= maxArrayLength)%Z)
    by (split; [exact (proj1 Hinit) | exact Hmax]).
  clear Hinit Hmax Hany.
  revert Hinv. generalize (initializeApp random p).
  induction Hactions as [|action actions Hin _ IH]; intros q Hq; [by destruct Hq|].
  cbn [fold_left]. apply IH. by apply dispatch_agrees.
Qed.

End SessionProperties.

(** ** The further theorems at concrete inputs *)

Lemma evaluate_ignores_order_at_ab1 :
  str "ab1" ≡ₚ str "1ba"
  /\ evaluatePasswordStrength (str "ab1") = evaluatePasswordStrength (str "1ba").
Proof.
  assert (H : str "ab1" ≡ₚ str "1ba")
    by (apply (bool_decide_unpack _); vm_compute; exact I).
  split; [exact H|]. exact (evaluate_ignores_order _ _ H).
Defined.

Lemma shuffle_of_short_array_at_one_letter :
  heap oneLetter !! 0%nat = Some [VString (str "x")]
  /\ shuffleArray sevenths 0 oneLetter
     = Return 1%nat (mkState 0 [[VString (str "x")]; [VString (str "x")]]).
Proof.
  split; [reflexivity|].
  apply (shuffle_of_short_array sevenths oneLetter 0%nat [VString (str "x")]);
    [reflexivity | simpl; lia].
Defined.

Lemma shuffle_reaches_every_permutation_at_reverse :
  exists random shuffled st',
    shuffleArray random 0 fourLetters = Return shuffled st'
    /\ heap st' !! shuffled
       = Some [VString (str "d"); VString (str "c");
               VString (str "b"); VString (str "a")].
Proof.
  apply (shuffle_reaches_every_permutation fourLetters 0%nat
           [VString (str "a"); VString (str "b");
            VString (str "c"); VString (str "d")]);
    [reflexivity | vm_compute; discriminate |].
  change [VString (str "d"); VString (str "c"); VString (str "b"); VString (str "a")]
    with (reverse [VString (str "a"); VString (str "b");
                   VString (str "c"); VString (str "d")]).
  symmetry. apply reverse_Permutation.
Defined.

Lemma generate_draws_at_inputs :
  validateSettings (allClasses 6) = true
  /\ (exists s st',
        generateSecurePassword sevenths (allClasses 6) emptyState = Return s st'
        /\ calls st' = 11%nat)
  /\ (exists st',
        generateSecurePassword sevenths (allClasses (2 ^ 32 + 4)) emptyState
        = Throw RangeError st'
        /\ calls st' = 4%nat).
Proof.
  split; [reflexivity|]. split.
  - destruct (generate_length sevenths (allClasses 6) emptyState eq_refl)
      as (s & st' & Hrun & Hlen); [vm_compute; discriminate|].
    exists s, st'. split; [exact Hrun|].
    rewrite (proj1 (generate_draws sevenths (allClasses 6) emptyState eq_refl)
               s st' Hrun).
    unfold allClasses, enabledCount in Hlen. cbn in Hlen.
    cbn [calls emptyState]. lia.
  - destruct (proj2 (generate_draws sevenths (allClasses (2 ^ 32 + 4)) emptyState
                       eq_refl)) as (st' & Hrun & Hcalls); [vm_compute; reflexivity|].
    exists st'. split; [exact Hrun|]. rewrite Hcalls. reflexivity.
Defined.

Lemma generated_password_score_at_two_of_three :
  validateSettings twoOfThree = true
  /\ exists s st',
       generateSecurePassword sevenths twoOfThree emptyState = Return s st'
       /\ Z.of_nat (length s) = 3%Z
       /\ score (evaluatePasswordStrength s) = 3%Z.
Proof.
  split; [reflexivity|].
  destruct (generated_password_score sevenths twoOfThree emptyState eq_refl)
    as (Hreturns & Hfacts).
  destruct Hreturns as (s & st' & Hrun); [vm_compute; discriminate|].
  destruct (Hfacts s st' Hrun) as (Hlen & Hscore & _).
  exists s, st'. split; [exact Hrun|]. split; [exact Hlen|].
  rewrite Hscore. change (Z.of_nat (length s) = 3%Z) in Hlen.
  replace (length s) with 3%nat by lia. reflexivity.
Defined.

Lemma getRandomChar_cases_at_digits :
  getRandomChar sevenths [] emptyState = Return [] (drawn 1 emptyState)
  /\ (exists c,
        getRandomChar sevenths CHAR_SETS.numbers emptyState
        = Return [c] (drawn 1 emptyState))
  /\ (exists random',
        getRandomChar random' CHAR_SETS.numbers emptyState
        = Return (str "7") (drawn 1 emptyState)).
Proof.
  destruct (getRandomChar_cases sevenths CHAR_SETS.numbers emptyState)
    as (_ & Hin & Hall).
  split; [|split].
  - apply (proj1 (getRandomChar_cases sevenths [] emptyState)). reflexivity.
  - destruct Hin as (c & Hc & _);
      [discriminate | vm_compute; discriminate |]. by exists c.
  - apply (Hall 7%nat); [reflexivity | vm_compute; discriminate].
Defined.

Lemma handleCheckboxChange_keeps_a_box_checked_at_unchecked :
  anyChecked (boxes uncheckedPage) = false
  /\ anyChecked (boxes (handleCheckboxChange sevenths Numbers uncheckedPage)) = true
  /\ boxes (handleCheckboxChange sevenths Numbers uncheckedPage)
     = mkBoxes false false true false.
Proof.
  destruct (handleCheckboxChange_keeps_a_box_checked sevenths Numbers uncheckedPage)
    as (Hany & Hkept).
  split; [reflexivity|]. split; [exact Hany|].
  destruct (Hkept eq_refl) as (Hboxes & _). exact Hboxes.
Defined.

Lemma settings_are_stale_after_kept_box_at_unchecked :
  anyChecked (boxes uncheckedPage) = false
  /\ validateSettings
       (passwordSettings (handleCheckboxChange sevenths Numbers uncheckedPage))
     = false
  /\ Z.of_nat
       (length
          (passwordOutput
             (handleGeneratePassword sevenths
                (handleCheckboxChange sevenths Numbers uncheckedPage))))
     = 8%Z.
Proof.
  split; [reflexivity|].
  destruct (settings_are_stale_after_kept_box sevenths Numbers uncheckedPage eq_refl)
    as (Hstale & _ & Hnext).
  split; [exact Hstale|].
  destruct Hnext as (_ & Hlen); [vm_compute; discriminate|]. exact Hlen.
Defined.


Lemma session_password_agrees_with_controls_at_full_page :
  anyChecked (boxes fullPage) = true
  /\ agrees
       (session sevenths
          [MoveSlider 5; ToggleBox Symbols; DropsTimer; ToggleBox Uppercase;
           ClickGenerate]
          fullPage).
Proof.
  split; [reflexivity|].
  apply (session_password_agrees_with_controls sevenths);
    [reflexivity | vm_compute; discriminate |].
  repeat constructor; vm_compute; discriminate.
Defined.

Lemma handleGeneratePassword_outcome_at_pages :
  shownErrors (handleGeneratePassword sevenths uncheckedPage) = [noClassMessage]
  /\ Z.of_nat (length (passwordOutput (handleGeneratePassword sevenths fullPage)))
     = 12%Z
  /\ shownErrors
       (handleGeneratePassword sevenths overflowPage)
     = [generateErrorMessage]
  /\ passwordOutput
       (handleGeneratePassword sevenths overflowPage)
     = str "kept".
Proof.
  split; [|split].
  - destruct (handleGeneratePassword_outcome sevenths uncheckedPage)
      as (_ & _ & _ & _ & Hnone & _).
    destruct (Hnone eq_refl) as (Herr & _). exact Herr.
  - destruct (handleGeneratePassword_outcome sevenths fullPage)
      as (_ & _ & _ & _ & _ & Hsome & _).
    destruct Hsome as (_ & Hlen & _);
      [reflexivity | vm_compute; discriminate |]. exact Hlen.
  - destruct (handleGeneratePassword_outcome sevenths overflowPage)
      as (_ & _ & _ & _ & _ & _ & Hover).
    destruct Hover as (Herr & Hout & _);
      [reflexivity | vm_compute; reflexivity |].
    split; [exact Herr | exact Hout].
Defined.

Example session_run_sevenths :
  passwordOutput
    (session sevenths
       [MoveSlider 5; ToggleBox Symbols; DropsTimer; ToggleBox Uppercase]
       fullPage)
  = str "asu1p".
Proof. vm_compute. reflexivity. Qed.
